(** * tmdb-rename: a shallow embedding of [tmdb-rename.py]

    The first half of the file embeds the program, in the order of the
    Python source: text helpers and regular expressions, name
    sanitisation, the catalogue client ([_tmdb_request], [_get_imdb_id],
    [_generate_search_variants], [_search_tmdb], [_manual_lookup]), folder
    scanning ([_is_collection], [_detect_type], [scan_folder],
    [_prepare_collection_items]), the review operations that update a
    [ScanResult], the filesystem, the rename engine ([_rename],
    [_do_rename], [_rollback], the [try] statement of [execute_renames])
    and [execute_renames] itself.  The second half states and proves the
    properties, module by module.

    Modelling conventions.
    - A Python [str] is a list of characters; a character is a code point
      below 256, carried by [ascii].  Character classes follow Python on
      that range.
    - Effects are explicit.  The catalogue is a script of answers, one per
      HTTP attempt; the response cache, the step log and the disk are
      values threaded through the functions; an exception is a result.
    - A float is modelled by the rational it denotes ([Q]).
    - [_extract_title_year] and the directory walk of [_find_videos] are
      parameters of the scanner: no property below depends on what they
      return. *)

From Stdlib Require Import List String Ascii Bool Arith ZArith QArith Lia.
From Stdlib Require Import NArith DecimalString Sorted Permutation Lqa.
Import ListNotations.

Set Implicit Arguments.
Close Scope Q_scope.
Local Open Scope list_scope.

(* ================================================================== *)
(** * Text *)
(* ================================================================== *)

Module Text.

Definition str := list ascii.

Definition lit (s : string) : str := list_ascii_of_string s.

Definition code (c : ascii) : N := N_of_ascii c.

Definition chr (n : N) : ascii := ascii_of_N n.

Definition ch_eqb (a b : ascii) : bool := Ascii.eqb a b.

Fixpoint str_eqb (a b : str) : bool :=
  match a, b with
  | [], [] => true
  | x :: a', y :: b' => ch_eqb x y && str_eqb a' b'
  | _, _ => false
  end.

Definition between (lo hi : N) (c : ascii) : bool :=
  ((lo <=? code c) && (code c <=? hi))%N.

(** [\d] on the modelled range: the decimal digits. *)
Definition is_digit (c : ascii) : bool := between 48 57 c.

(** [str.isdigit] per character: the decimal digits and the superscript
    digits U+00B2, U+00B3, U+00B9. *)
Definition py_isdigit_char (c : ascii) : bool :=
  is_digit c || (code c =? 178)%N || (code c =? 179)%N || (code c =? 185)%N.

(** [str.isdigit]: false on the empty string. *)
Definition isdigit (s : str) : bool :=
  match s with [] => false | _ => forallb py_isdigit_char s end.

(** [\s] on the modelled range: the characters for which [str.isspace]
    holds. *)
Definition is_space (c : ascii) : bool :=
  between 9 13 c || between 28 32 c || (code c =? 133)%N || (code c =? 160)%N.

(** The upper-case letters of the modelled range: A-Z and U+00C0-U+00DE
    without the multiplication sign U+00D7. *)
Definition is_upper (c : ascii) : bool :=
  between 65 90 c || (between 192 222 c && negb (code c =? 215)%N).

(** [str.lower], character by character. *)
Definition lower_char (c : ascii) : ascii :=
  if is_upper c then chr (code c + 32) else c.

Definition lower (s : str) : str := map lower_char s.

(** Equality of characters under [re.IGNORECASE]. *)
Definition ch_eqb_ci (a b : ascii) : bool :=
  ch_eqb (lower_char a) (lower_char b).

Fixpoint startswith (p s : str) : bool :=
  match p, s with
  | [], _ => true
  | x :: p', y :: s' => ch_eqb x y && startswith p' s'
  | _ :: _, [] => false
  end.

(** [s.replace(c, '')] for a single character [c]. *)
Definition remove_char (c : ascii) (s : str) : str :=
  filter (fun x => negb (ch_eqb x c)) s.

Fixpoint lstrip (p : ascii -> bool) (s : str) : str :=
  match s with
  | [] => []
  | c :: t => if p c then lstrip p t else s
  end.

Definition rstrip (p : ascii -> bool) (s : str) : str :=
  rev (lstrip p (rev s)).

(** [s.strip(chars)]. *)
Definition strip (p : ascii -> bool) (s : str) : str :=
  rstrip p (lstrip p s).

(** [re.sub(r'\s+', ' ', s)]: each maximal run of whitespace becomes one
    space.  [in_run] records that the previous character was whitespace. *)
Fixpoint collapse_ws_from (in_run : bool) (s : str) : str :=
  match s with
  | [] => []
  | c :: t =>
      if is_space c
      then if in_run then collapse_ws_from true t
           else " "%char :: collapse_ws_from true t
      else c :: collapse_ws_from false t
  end.

Definition collapse_ws (s : str) : str := collapse_ws_from false s.

End Text.

Import Text.

(* ================================================================== *)
(** * Regular expressions *)
(* ================================================================== *)

(** The patterns of the program are used in two ways that only need a
    yes/no answer: [re.match] with an anchored pattern and [re.search].
    Both are decided here with Brzozowski derivatives. *)

Module Re.

Inductive regex : Type :=
| Void : regex
| Eps : regex
| Cls : (ascii -> bool) -> regex
| Cat : regex -> regex -> regex
| Alt : regex -> regex -> regex
| Star : regex -> regex.

Fixpoint nullable (r : regex) : bool :=
  match r with
  | Void => false
  | Eps => true
  | Cls _ => false
  | Cat a b => nullable a && nullable b
  | Alt a b => nullable a || nullable b
  | Star _ => true
  end.

Fixpoint deriv (c : ascii) (r : regex) : regex :=
  match r with
  | Void => Void
  | Eps => Void
  | Cls p => if p c then Eps else Void
  | Cat a b =>
      if nullable a then Alt (Cat (deriv c a) b) (deriv c b)
      else Cat (deriv c a) b
  | Alt a b => Alt (deriv c a) (deriv c b)
  | Star a => Cat (deriv c a) (Star a)
  end.

(** The whole of [s] is a word of [r]. *)
Fixpoint matches (r : regex) (s : str) : bool :=
  match s with
  | [] => nullable r
  | c :: t => matches (deriv c r) t
  end.

(** Pattern syntax. *)
Definition chr_is (c : ascii) : regex := Cls (fun x => ch_eqb x c).
Definition chr_ci (c : ascii) : regex := Cls (fun x => ch_eqb_ci x c).
Definition any : regex := Cls (fun _ => true).
(** [.] without [re.DOTALL]: anything but a newline. *)
Definition dot : regex := Cls (fun x => negb (code x =? 10)%N).
Definition digit : regex := Cls is_digit.
Definition space : regex := Cls is_space.
Definition plus (r : regex) : regex := Cat r (Star r).
Definition opt (r : regex) : regex := Alt r Eps.

Fixpoint seq (rs : list regex) : regex :=
  match rs with
  | [] => Eps
  | r :: rs' => Cat r (seq rs')
  end.

Fixpoint alts (rs : list regex) : regex :=
  match rs with
  | [] => Void
  | r :: rs' => Alt r (alts rs')
  end.

(** [r{n}]. *)
Fixpoint rep (n : nat) (r : regex) : regex :=
  match n with
  | O => Eps
  | S n' => Cat r (rep n' r)
  end.

(** [r{n,}]. *)
Definition at_least (n : nat) (r : regex) : regex := Cat (rep n r) (Star r).

(** [r{0,k}]. *)
Fixpoint up_to (k : nat) (r : regex) : regex :=
  match k with
  | O => Eps
  | S k' => opt (Cat r (up_to k' r))
  end.

(** [r{n,m}]. *)
Definition from_to (n m : nat) (r : regex) : regex :=
  Cat (rep n r) (up_to (m - n) r).

(** A literal, and a literal under [re.IGNORECASE]. *)
Definition word (s : string) : regex := seq (map chr_is (lit s)).
Definition word_ci (s : string) : regex := seq (map chr_ci (lit s)).

(** [re.match('^' r '$', s)]: [$] also matches just before a newline that
    ends the string. *)
Definition match_anchored (r : regex) (s : str) : bool :=
  matches r s || matches (Cat r (chr_is (chr 10))) s.

(** [re.search(r, s)] for a pattern without anchors. *)
Definition search (r : regex) (s : str) : bool :=
  matches (Cat (Star any) (Cat r (Star any))) s.

End Re.

(* ================================================================== *)
(** * Errors *)
(* ================================================================== *)

(** [RenameError(msg)] and the other exceptions a function lets escape are
    the [Raise] results. *)
Inductive result (A : Type) : Type :=
| Return : A -> result A
| Raise : string -> result A.

Arguments Return {A} _.
Arguments Raise {A} _.

(* ================================================================== *)
(** * Name sanitisation *)
(* ================================================================== *)

Module Sanitize.

(** The nine characters the [for c in ...] loop removes, in the order it
    visits them; [chr 34] is the double quote. *)
Definition forbidden : list ascii :=
  [ "<"%char; ">"%char; ":"%char; chr 34; "/"%char; "\"%char; "|"%char;
    "?"%char; "*"%char ].

(** [re.sub(r'[\x00-\x1f]', '', name)]. *)
Definition drop_c0 (s : str) : str :=
  filter (fun c => negb (between 0 31 c)) s.

Definition dot_or_space (c : ascii) : bool :=
  ch_eqb c "."%char || ch_eqb c " "%char.

(** The successive rewrites of [name] in [_sanitize]. *)
Definition cleaned (name : str) : str :=
  let name := fold_left (fun n c => remove_char c n) forbidden name in
  let name := drop_c0 name in
  strip dot_or_space (collapse_ws name).

Definition _sanitize (name : str) : result str :=
  match name with
  | [] => Raise "Empty name"
  | _ =>
      let name := cleaned name in
      match name with
      | [] => Raise "Name empty after sanitization"
      | _ =>
          if (200 <? List.length name)%nat then Raise "Name too long"
          else Return name
      end
  end.

End Sanitize.

(* ================================================================== *)
(** * Data model *)
(* ================================================================== *)

Inductive MediaType : Type := MOVIE | SERIES | COLLECTION | UNKNOWN.

Inductive MatchStatus : Type :=
| AUTO | UNSURE | MANUAL | NONE | SKIP | DONE | RENAMED.

Definition MediaType_eqb (a b : MediaType) : bool :=
  match a, b with
  | MOVIE, MOVIE | SERIES, SERIES | COLLECTION, COLLECTION
  | UNKNOWN, UNKNOWN => true
  | _, _ => false
  end.

Definition MatchStatus_eqb (a b : MatchStatus) : bool :=
  match a, b with
  | AUTO, AUTO | UNSURE, UNSURE | MANUAL, MANUAL | NONE, NONE
  | SKIP, SKIP | DONE, DONE | RENAMED, RENAMED => true
  | _, _ => false
  end.

Record EpisodeInfo : Type := { season : Z; episode : Z }.

(** A filesystem path is the list of its components, root first. *)
Definition path := list str.

Record VideoFile : Type := {
  vf_path : path;
  size_bytes : Z;
  vf_media_type : MediaType;
  episode_info : option EpisodeInfo;
  vf_extracted_title : option str;
  vf_extracted_year : option str;
  parent_folder : option path
}.

Record MediaMatch : Type := {
  tmdb_id : Z;
  imdb_id : option str;
  title : str;
  original_title : str;
  year : str;
  media_type : str;
  popularity : Q
}.

Record CollectionItem : Type := {
  ci_folder_path : option path;
  ci_video_path : path;
  ci_video_size : Z;
  ci_extracted_title : option str;
  ci_extracted_year : option str;
  ci_matches : list MediaMatch;
  ci_selected_match : option MediaMatch;
  ci_status : MatchStatus
}.

Record ScanResult : Type := {
  sr_path : path;
  folder_name : str;
  detected_type : MediaType;
  extracted_title : option str;
  extracted_year : option str;
  videos : list VideoFile;
  matches : list MediaMatch;
  selected_match : option MediaMatch;
  status : MatchStatus;
  new_name : option str;
  error : option str;
  collection_items : option (list CollectionItem)
}.

(** Truthiness of an optional string ([if year:], [if not title:]). *)
Definition truthy_str (o : option str) : bool :=
  match o with
  | Some (_ :: _) => true
  | _ => false
  end.

(** [v.size_gb > 1]: [size_bytes / 1024**3 > 1].  Dividing by a power of
    two is exact on the sizes a file can have, so the test is the integer
    comparison. *)
Definition over_1GiB (size : Z) : bool := (1024 ^ 3 <? size)%Z.

(* ================================================================== *)
(** * The catalogue client *)
(* ================================================================== *)

Module Tmdb.

(** Decoded JSON.  Payloads are read at the shape the catalogue documents:
    a field of another type than the program expects is read as absent. *)
#[local] Unset Elimination Schemes.
Inductive json : Type :=
| JNull : json
| JBool : bool -> json
| JInt : Z -> json
| JFloat : Q -> json
| JStr : str -> json
| JArr : list json -> json
| JObj : list (str * json) -> json.
#[local] Set Elimination Schemes.

(** Python truthiness ([if data:], [if not data:]). *)
Definition truthy (d : json) : bool :=
  match d with
  | JNull => false
  | JBool b => b
  | JInt n => negb (n =? 0)%Z
  | JFloat q => negb (Qeq_bool q 0%Q)
  | JStr s => match s with [] => false | _ => true end
  | JArr l => match l with [] => false | _ => true end
  | JObj kv => match kv with [] => false | _ => true end
  end.

Fixpoint assoc {V : Type} (k : str) (kv : list (str * V)) : option V :=
  match kv with
  | [] => None
  | (k', v) :: rest => if str_eqb k k' then Some v else assoc k rest
  end.

(** [d.get(k)]. *)
Definition get (k : string) (d : json) : option json :=
  match d with
  | JObj kv => assoc (lit k) kv
  | _ => None
  end.

(** [k in d]. *)
Definition has_key (k : string) (d : json) : bool :=
  match get k d with Some _ => true | None => false end.

(** [d.get(k, '') or ''] read as a string. *)
Definition get_text (k : string) (d : json) : str :=
  match get k d with
  | Some (JStr s) => s
  | _ => []
  end.

(** [d.get(k, [])] read as a list. *)
Definition get_list (k : string) (d : json) : list json :=
  match get k d with
  | Some (JArr l) => l
  | _ => []
  end.

(** [item.get('id')], with [None] for an absent identifier. *)
Definition get_id (d : json) : option Z :=
  match get "id" d with
  | Some (JInt n) => Some n
  | _ => None
  end.

(** [item.get('popularity', 0)]. *)
Definition get_popularity (d : json) : Q :=
  match get "popularity" d with
  | Some (JFloat q) => q
  | Some (JInt n) => inject_Z n
  | _ => 0%Q
  end.

(** A request is the endpoint and the parameters its URL is built from. *)
Definition request : Type := (str * list (str * str))%type.

Definition request_eqb (a b : request) : bool :=
  str_eqb (fst a) (fst b) &&
  (fix go (x y : list (str * str)) : bool :=
     match x, y with
     | [], [] => true
     | (k1, v1) :: x', (k2, v2) :: y' =>
         str_eqb k1 k2 && str_eqb v1 v2 && go x' y'
     | _, _ => false
     end) (snd a) (snd b).

(** What one HTTP attempt can end in. *)
Inductive response : Type :=
| Http200 : json -> response
| HttpError : nat -> response      (* urllib.error.HTTPError, with e.code *)
| Failure : response.              (* any other exception *)

(** The state the client works in.  [net] scripts the catalogue: its n-th
    element answers the n-th HTTP attempt, and an exhausted script is a
    network that no longer answers.  [sent] and [slept] are observations
    only: the attempts made, oldest first, and the seconds spent in
    [time.sleep]. *)
Record world : Type := {
  cache : list (request * json);
  net : list (request -> response);
  sent : list request;
  slept : nat
}.

Fixpoint cache_get (rq : request) (c : list (request * json)) : option json :=
  match c with
  | [] => None
  | (rq', d) :: rest => if request_eqb rq rq' then Some d else cache_get rq rest
  end.

(** [_tmdb_request], by recursion on the script: every attempt consumes
    one scripted answer, and the call after a rate limit is the recursive
    call of the source.  The recursion limit of the interpreter is not
    modelled. *)
Fixpoint request_loop (script : list (request -> response))
    (c : list (request * json)) (log : list request) (zz : nat)
    (rq : request) : option json * world :=
  match cache_get rq c with
  | Some d => (Some d, {| cache := c; net := script; sent := log; slept := zz |})
  | None =>
      match script with
      | [] =>
          (None, {| cache := c; net := []; sent := log ++ [rq]; slept := zz |})
      | answer :: script' =>
          match answer rq with
          | Http200 d =>
              (Some d, {| cache := (rq, d) :: c; net := script';
                          sent := log ++ [rq]; slept := zz |})
          | HttpError e =>
              if (e =? 429)%nat
              then request_loop script' c (log ++ [rq]) (zz + 2) rq
              else (None, {| cache := c; net := script';
                             sent := log ++ [rq]; slept := zz |})
          | Failure =>
              (None, {| cache := c; net := script';
                        sent := log ++ [rq]; slept := zz |})
          end
      end
  end.

Definition _tmdb_request (w : world) (endpoint : str)
    (params : list (str * str)) : option json * world :=
  request_loop (net w) (cache w) (sent w) (slept w) (endpoint, params).


(** [str(n)] for an integer. *)
Definition dec (n : Z) : str := lit (NilZero.string_of_int (Z.to_int n)).

(** [_get_imdb_id]. *)
Definition _get_imdb_id (w : world) (id : Z) (kind : str)
    : option str * world :=
  let endpoint := lit "/" ++ kind ++ lit "/" ++ dec id ++ lit "/external_ids" in
  let '(data, w) := _tmdb_request w endpoint [] in
  match data with
  | None => (None, w)
  | Some d =>
      if negb (truthy d) then (None, w)
      else match get "imdb_id" d with
           | Some (JStr s) => (Some s, w)
           | _ => (None, w)
           end
  end.

(** ** Query variants *)

(** [s.replace(a ++ b, r)] for a two-character pattern. *)
Fixpoint replace2 (a b r : ascii) (s : str) : str :=
  match s with
  | x :: ((y :: t) as s') =>
      if ch_eqb x a && ch_eqb y b then r :: replace2 a b r t
      else x :: replace2 a b r s'
  | _ => s
  end.

Definition is_consonant (c : ascii) : bool :=
  existsb (ch_eqb c) (lit "bcdfghjklmnpqrstvwxzBCDFGHJKLMNPQRSTVWXZ").

(** [re.sub(r'(?<=[bcd...XZ])ue', r, s)]: [prev] is the character before
    the current position in the subject string. *)
Fixpoint replace_ue (r : ascii) (prev : option ascii) (s : str) : str :=
  match s with
  | x :: ((y :: t) as s') =>
      if ch_eqb x "u"%char && ch_eqb y "e"%char
         && match prev with Some p => is_consonant p | None => false end
      then r :: replace_ue r (Some y) t
      else x :: replace_ue r (Some x) s'
  | _ => s
  end.

(** [_to_umlauts]: the entries of [UMLAUTS] in insertion order. *)
Definition _to_umlauts (text : str) : str :=
  let result := replace2 "a" "e" (chr 228) text in
  let result := replace2 "o" "e" (chr 246) result in
  let result := replace_ue (chr 252) None result in
  let result := replace2 "A" "e" (chr 196) result in
  let result := replace2 "O" "e" (chr 214) result in
  replace2 "U" "e" (chr 220) result.

(** [sub in s]. *)
Fixpoint contains (sub s : str) : bool :=
  startswith sub s ||
  match s with
  | [] => false
  | _ :: t => contains sub t
  end.

(** The length of the match of [\s+[Aa]nd\s+] at the head of [s], if
    there is one. *)
Definition and_match (s : str) : option nat :=
  match s with
  | c :: _ =>
      if is_space c then
        let r := lstrip is_space s in
        match r with
        | a :: n :: d :: ((e :: _) as r') =>
            if (ch_eqb a "A"%char || ch_eqb a "a"%char)
               && ch_eqb n "n"%char && ch_eqb d "d"%char && is_space e
            then Some (List.length s - List.length (lstrip is_space r'))
            else None
        | _ => None
        end
      else None
  | [] => None
  end.

(** [re.sub(r'\s+[Aa]nd\s+', ' & ', s)]; [skip] counts the characters
    of the current match still to be passed over. *)
Fixpoint sub_and (skip : nat) (s : str) : str :=
  match s with
  | [] => []
  | c :: t =>
      match skip with
      | S k => sub_and k t
      | O =>
          match and_match s with
          | Some n => lit " & " ++ sub_and (n - 1) t
          | None => c :: sub_and 0 t
          end
      end
  end.

(** [s.split()]: the maximal runs of non-whitespace; [cur] is the run
    being read, reversed. *)
Fixpoint split_ws (cur : str) (s : str) : list str :=
  match s with
  | [] => match cur with [] => [] | _ => [rev cur] end
  | c :: t =>
      if is_space c
      then match cur with
           | [] => split_ws [] t
           | _ => rev cur :: split_ws [] t
           end
      else split_ws (c :: cur) t
  end.

(** [' '.join(words)]. *)
Fixpoint join_sp (words : list str) : str :=
  match words with
  | [] => []
  | [w0] => w0
  | w0 :: rest => w0 ++ " "%char :: join_sp rest
  end.

(** [s.split(sep)[0]]: the part of [s] before the first [sep]. *)
Fixpoint before (sep s : str) : str :=
  if startswith sep s then []
  else match s with
       | [] => []
       | c :: t => c :: before sep t
       end.

Definition variant_eqb (a b : str * option str) : bool :=
  str_eqb (fst a) (fst b) &&
  match snd a, snd b with
  | Some x, Some y => str_eqb x y
  | None, None => true
  | _, _ => false
  end.

(** The [seen]/[unique] loop. *)
Fixpoint unique_from (seen : list (str * option str))
    (variants : list (str * option str)) : list (str * option str) :=
  match variants with
  | [] => []
  | v :: rest =>
      if existsb (variant_eqb v) seen then unique_from seen rest
      else v :: unique_from (v :: seen) rest
  end.

Definition _generate_search_variants (title : str) (yr : option str)
    : list (str * option str) :=
  let variants := [ (title, yr); (title, None) ] in
  let title_umlaut := _to_umlauts title in
  let variants := variants ++
    if negb (str_eqb title_umlaut title)
    then [ (title_umlaut, yr); (title_umlaut, None) ] else [] in
  let variants := variants ++
    if contains (lit " And ") title || contains (lit " and ") title
    then let title_amp := sub_and 0 title in
         [ (title_amp, yr); (title_amp, None) ]
    else [] in
  let words := split_ws [] title in
  let variants := variants ++
    if (3 <? List.length words)%nat
    then [ (join_sp (firstn 2 words), yr); (join_sp (firstn 3 words), yr) ]
    else [] in
  let variants := variants ++
    if contains (lit " - ") title
    then let main_title := strip is_space (before (lit " - ") title) in
         if (3 <? List.length main_title)%nat then [ (main_title, yr) ] else []
    else [] in
  unique_from [] variants.

(** ** Search *)

(** The state of the loops of [_search_tmdb].  [seen_items] is an
    observation only: every element of a [data['results']] list the inner
    loop has visited, in order. *)
Record search_state : Type := {
  ss_world : world;
  results : list MediaMatch;
  seen_ids : list Z;
  seen_items : list json
}.

Definition is_series (mtype : MediaType) : bool := MediaType_eqb mtype SERIES.

Definition media_str (mtype : MediaType) : str :=
  if is_series mtype then lit "tv" else lit "movie".

(** The fields of a [MediaMatch] that [_search_tmdb] reads off an item. *)
Definition item_title (mtype : MediaType) (item : json) : str :=
  get_text (if is_series mtype then "name" else "title") item.

Definition item_orig_title (mtype : MediaType) (item : json) : str :=
  get_text (if is_series mtype then "original_name" else "original_title") item.

Definition item_year (mtype : MediaType) (item : json) : str :=
  firstn 4 (get_text (if is_series mtype then "first_air_date"
                      else "release_date") item).

(** The body of [for item in data['results']]. *)
Definition item_step (mtype : MediaType) (st : search_state) (item : json)
    : search_state :=
  let visited := seen_items st ++ [item] in
  let skip := {| ss_world := ss_world st; results := results st;
                 seen_ids := seen_ids st; seen_items := visited |} in
  match get_id item with
  | None => skip
  | Some id =>
      if (id =? 0)%Z || existsb (Z.eqb id) (seen_ids st) then skip
      else
        let '(imdb, w) :=
          if (List.length (results st) <? 3)%nat
          then _get_imdb_id (ss_world st) id (media_str mtype)
          else (None, ss_world st) in
        {| ss_world := w;
           results := results st ++
             [ {| tmdb_id := id; imdb_id := imdb;
                  title := item_title mtype item;
                  original_title := item_orig_title mtype item;
                  year := item_year mtype item;
                  media_type := media_str mtype;
                  popularity := get_popularity item |} ];
           seen_ids := id :: seen_ids st;
           seen_items := visited |}
  end.

Definition search_params (mtype : MediaType) (query : str) (yr : option str)
    : list (str * str) :=
  [ (lit "query", query); (lit "language", lit "de-DE");
    (lit "include_adult", lit "false") ] ++
  match yr with
  | Some (c :: y) =>
      [ (lit (if is_series mtype then "first_air_date_year" else "year"),
         c :: y) ]
  | _ => []
  end.

(** The body of [for query, yr in search_variants], with its [break]. *)
Fixpoint variants_loop (mtype : MediaType)
    (variants : list (str * option str)) (st : search_state) : search_state :=
  match variants with
  | [] => st
  | (query, yr) :: rest =>
      if (8 <=? List.length (results st))%nat then st
      else
        let endpoint := lit (if is_series mtype then "/search/tv"
                             else "/search/movie") in
        let '(data, w) :=
          _tmdb_request (ss_world st) endpoint (search_params mtype query yr) in
        let st := {| ss_world := w; results := results st;
                     seen_ids := seen_ids st; seen_items := seen_items st |} in
        match data with
        | Some d =>
            if truthy d && has_key "results" d
            then variants_loop mtype rest
                   (fold_left (item_step mtype) (get_list "results" d) st)
            else variants_loop mtype rest st
        | None => variants_loop mtype rest st
        end
  end.

(** [list.sort(key=...)]: a stable sort, written as insertion of each
    element after the elements that do not come after it. *)
Fixpoint insert_by {A : Type} (lt : A -> A -> bool) (x : A) (l : list A)
    : list A :=
  match l with
  | [] => [x]
  | y :: t => if lt x y then x :: y :: t else y :: insert_by lt x t
  end.

Definition sort_by {A : Type} (lt : A -> A -> bool) (l : list A) : list A :=
  fold_left (fun acc x => insert_by lt x acc) l [].

Definition Qltb (a b : Q) : bool := negb (Qle_bool b a).

(** The first component of the sort key when a year is given:
    [0 if r.year == year else 1]. *)
Definition year_rank (y : str) (r : MediaMatch) : nat :=
  if str_eqb (year r) y then 0 else 1.

(** Comparison of the keys [(year_rank, -popularity)]. *)
Definition key_lt_year (y : str) (a b : MediaMatch) : bool :=
  (year_rank y a <? year_rank y b)%nat ||
  ((year_rank y a =? year_rank y b)%nat &&
   Qltb (- popularity a)%Q (- popularity b)%Q).

(** Comparison of the keys [-popularity]. *)
Definition key_lt_pop (a b : MediaMatch) : bool :=
  Qltb (- popularity a)%Q (- popularity b)%Q.

Definition rank (yr : option str) (rs : list MediaMatch) : list MediaMatch :=
  match yr with
  | Some (c :: y) => sort_by (key_lt_year (c :: y)) rs
  | _ => sort_by key_lt_pop rs
  end.

Definition start_search (w : world) : search_state :=
  {| ss_world := w; results := []; seen_ids := []; seen_items := [] |}.

(** [_search_tmdb] from the point where [search_variants] is bound. *)
Definition search_from (variants : list (str * option str))
    (w : world) (yr : option str) (mtype : MediaType)
    : list MediaMatch * world :=
  let st := variants_loop mtype variants (start_search w) in
  (firstn 10 (rank yr (results st)), ss_world st).

Definition _search_tmdb (w : world) (title : str) (yr : option str)
    (mtype : MediaType) : list MediaMatch * world :=
  search_from (_generate_search_variants title yr) w yr mtype.

(** [int(s)] for a string [str.isdigit] accepts: the superscript digits
    pass [isdigit] but make [int] raise [ValueError]. *)
Definition int_of (s : str) : option Z :=
  if forallb is_digit s
  then Some (fold_left (fun n c => (10 * n + Z.of_N (code c) - 48)%Z) s 0%Z)
  else None.

(** The pattern [^tt\d{7,8}$]. *)
Definition imdb_id_78 : Re.regex :=
  Re.seq [Re.word "tt"; Re.from_to 7 8 Re.digit].

(** The [MediaMatch] built from the first [/find] result; the catalogue
    gives every result an [id]. *)
Definition match_of_find (manual : str) (item : json) : MediaMatch :=
  let is_movie := has_key "title" item in
  {| tmdb_id := match get_id item with Some n => n | None => 0%Z end;
     imdb_id := Some manual;
     title := get_text (if is_movie then "title" else "name") item;
     original_title :=
       get_text (if is_movie then "original_title" else "original_name") item;
     year := firstn 4 (get_text (if is_movie then "release_date"
                                 else "first_air_date") item);
     media_type := lit (if is_movie then "movie" else "tv");
     popularity := 0%Q |}.

(** The [MediaMatch] built from a [/movie/{id}] or [/tv/{id}] payload. *)
Definition match_of_details (movie : bool) (id : Z) (imdb : option str)
    (data : json) : MediaMatch :=
  {| tmdb_id := id;
     imdb_id := imdb;
     title := get_text (if movie then "title" else "name") data;
     original_title :=
       get_text (if movie then "original_title" else "original_name") data;
     year := firstn 4 (get_text (if movie then "release_date"
                                 else "first_air_date") data);
     media_type := lit (if movie then "movie" else "tv");
     popularity := 0%Q |}.

(** The first [if] block of [_manual_lookup]: it rebinds [manual] and may
    return a match.  The result is the rebound [manual], the match
    returned (if any) and the world. *)
Definition lookup_by_imdb (w : world) (manual : str)
    : str * option MediaMatch * world :=
  if startswith (lit "tt") manual
     || (isdigit manual && (7 <=? List.length manual)%nat)
  then
    let manual :=
      if negb (startswith (lit "tt") manual) then lit "tt" ++ manual
      else manual in
    if Re.match_anchored imdb_id_78 manual
    then
      let '(data, w) :=
        _tmdb_request w (lit "/find/" ++ manual)
          [ (lit "external_source", lit "imdb_id") ] in
      match data with
      | Some d =>
          if truthy d
          then match get_list "movie_results" d ++ get_list "tv_results" d with
               | item :: _ => (manual, Some (match_of_find manual item), w)
               | [] => (manual, None, w)
               end
          else (manual, None, w)
      | None => (manual, None, w)
      end
    else (manual, None, w)
  else (manual, None, w).

(** [data and 'id' in data]. *)
Definition found (data : option json) : option json :=
  match data with
  | Some d => if truthy d && has_key "id" d then Some d else None
  | None => None
  end.

(** The second [if] block of [_manual_lookup], on the value [manual] has
    when control reaches it. *)
Definition lookup_by_tmdb (w : world) (manual : str)
    : result (option MediaMatch) * world :=
  if isdigit manual
  then
    match int_of manual with
    | None => (Raise "ValueError", w)
    | Some id =>
        let params := [ (lit "language", lit "de-DE") ] in
        let '(data, w) := _tmdb_request w (lit "/movie/" ++ dec id) params in
        match found data with
        | Some d =>
            let '(imdb, w) := _get_imdb_id w id (lit "movie") in
            (Return (Some (match_of_details true id imdb d)), w)
        | None =>
            let '(data, w) := _tmdb_request w (lit "/tv/" ++ dec id) params in
            match found data with
            | Some d =>
                let '(imdb, w) := _get_imdb_id w id (lit "tv") in
                (Return (Some (match_of_details false id imdb d)), w)
            | None => (Return None, w)
            end
        end
    end
  else (Return None, w).

Definition _manual_lookup (w : world) (manual : str)
    : result (option MediaMatch) * world :=
  match manual with
  | [] => (Return None, w)
  | _ =>
      let '(manual, hit, w) := lookup_by_imdb w manual in
      match hit with
      | Some m => (Return (Some m), w)
      | None => lookup_by_tmdb w manual
      end
  end.

End Tmdb.

(* ================================================================== *)
(** * Scanning *)
(* ================================================================== *)

Module Scan.

Import Tmdb.

(** [p.name]. *)
Definition name_of (p : path) : str := last p [].

(** The entries of [COLLECTION_PATTERNS], as [re.search] under
    [re.IGNORECASE] reads them.  The last pattern also admits an en dash
    between the years, which lies outside the modelled character range. *)
Definition COLLECTION_PATTERNS : list Re.regex :=
  [ Re.word_ci "collection";
    Re.word_ci "sammlung";
    Re.word_ci "anthology";
    Re.word_ci "saga";
    Re.seq [Re.word_ci "box"; Re.opt (Re.chr_is "."%char); Re.word_ci "set"];
    Re.seq [Re.rep 4 Re.digit; Re.Star Re.space; Re.chr_is "-"%char;
            Re.Star Re.space; Re.rep 4 Re.digit] ].

(** [s\d{1,2}|season|staffel] under [re.I]. *)
Definition series_cue : Re.regex :=
  Re.alts [ Re.seq [Re.chr_ci "s"%char; Re.from_to 1 2 Re.digit];
            Re.word_ci "season";
            Re.word_ci "staffel" ].

(** [^.+\s\(\d{4}\)\s\[imdbid-tt\d{7,}\]$]. *)
Definition canonical_name : Re.regex :=
  Re.seq [ Re.plus Re.dot; Re.space; Re.chr_is "("%char; Re.rep 4 Re.digit;
           Re.chr_is ")"%char; Re.space; Re.word "[imdbid-tt";
           Re.at_least 7 Re.digit; Re.chr_is "]"%char ].

(** [len(set(xs))] for strings. *)
Fixpoint distinct (seen : list str) (xs : list str) : nat :=
  match xs with
  | [] => List.length seen
  | x :: rest =>
      if existsb (str_eqb x) seen then distinct seen rest
      else distinct (x :: seen) rest
  end.

(** The truthy values among [f v] for [v] in [vs]. *)
Fixpoint truthy_values (f : VideoFile -> option str) (vs : list VideoFile)
    : list str :=
  match vs with
  | [] => []
  | v :: rest =>
      match f v with
      | Some (c :: s) => (c :: s) :: truthy_values f rest
      | _ => truthy_values f rest
      end
  end.

Definition has_episode (v : VideoFile) : bool :=
  match episode_info v with Some _ => true | None => false end.

Definition _is_collection (folder : str) (vs : list VideoFile) : bool :=
  if existsb (fun pat => Re.search pat folder) COLLECTION_PATTERNS then true
  else if (2 <=? List.length vs)%nat then
    if (2 <=? distinct [] (truthy_values vf_extracted_year vs))%nat then true
    else if (2 <=? distinct [] (truthy_values vf_extracted_title vs))%nat
    then true
    else
      let big_movies :=
        filter (fun v => over_1GiB (size_bytes v) && negb (has_episode v)) vs in
      (2 <=? List.length big_movies)%nat
  else false.

Section Scanner.

(** [_extract_title_year], and the [VideoFile] records the walk of
    [_find_videos] appends for a directory, in the order it appends them.
    The scanner is stated over both: what follows holds whatever they
    return. *)
Variable _extract_title_year : str -> option str * option str.
Variable walk : path -> list VideoFile.

(** [sorted(videos, key=lambda v: v.size_bytes, reverse=True)]. *)
Definition _find_videos (directory : path) : list VideoFile :=
  sort_by (fun a b => (size_bytes b <? size_bytes a)%Z) (walk directory).

Definition _detect_type (directory : path) : MediaType * list VideoFile :=
  let vs := _find_videos directory in
  match vs with
  | [] => (UNKNOWN, vs)
  | best :: _ =>
      if _is_collection (name_of directory) vs then (COLLECTION, vs)
      else
        let eps := filter (fun v => MediaType_eqb (vf_media_type v) SERIES) vs in
        if (2 <=? List.length eps)%nat then (SERIES, vs)
        else
          let movies :=
            filter (fun v => MediaType_eqb (vf_media_type v) MOVIE) vs in
          if match movies with
             | m :: _ => over_1GiB (size_bytes m)
             | [] => false
             end
          then (MOVIE, vs)
          else if Re.search series_cue (name_of directory) then (SERIES, vs)
          else (vf_media_type best, vs)
  end.

(** The match a single ranked candidate list selects on its own:
    [len(matches) == 1 and year and matches[0].year == year]. *)
Definition sole_year_match (ms : list MediaMatch) (yr : option str)
    : option MediaMatch :=
  match ms, yr with
  | [m], Some (c :: y) => if str_eqb (year m) (c :: y) then Some m else None
  | _, _ => None
  end.

Definition _prepare_collection_item (w : world) (v : VideoFile)
    : CollectionItem * world :=
  let t := vf_extracted_title v in
  let y := vf_extracted_year v in
  let '(ms, w) :=
    match t with
    | Some (c :: s) => _search_tmdb w (c :: s) y MOVIE
    | _ => ([], w)
    end in
  ({| ci_folder_path := parent_folder v;
      ci_video_path := vf_path v;
      ci_video_size := size_bytes v;
      ci_extracted_title := t;
      ci_extracted_year := y;
      ci_matches := ms;
      ci_selected_match := sole_year_match ms y;
      ci_status :=
        match sole_year_match ms y with
        | Some _ => AUTO
        | None => UNSURE
        end |}, w).

Fixpoint _prepare_collection_items (w : world) (vs : list VideoFile)
    : list CollectionItem * world :=
  match vs with
  | [] => ([], w)
  | v :: rest =>
      let '(item, w) := _prepare_collection_item w v in
      let '(items, w) := _prepare_collection_items w rest in
      (item :: items, w)
  end.

Definition scan_folder (w : world) (folder : path) : ScanResult * world :=
  let fname := name_of folder in
  if Re.match_anchored canonical_name fname
  then ({| sr_path := folder; folder_name := fname;
           detected_type := MOVIE;
           extracted_title := None; extracted_year := None;
           videos := []; matches := [];
           selected_match := None; status := DONE;
           new_name := None; error := None; collection_items := None |}, w)
  else
    let '(dtype, vs) := _detect_type folder in
    let '(t, y) := _extract_title_year fname in
    let result st err ms sel items :=
      {| sr_path := folder; folder_name := fname;
         detected_type := dtype;
         extracted_title := t; extracted_year := y;
         videos := vs; matches := ms;
         selected_match := sel; status := st;
         new_name := None; error := err; collection_items := items |} in
    match vs with
    | [] => (result NONE (Some (lit "No videos")) [] None None, w)
    | _ =>
        if MediaType_eqb dtype COLLECTION
        then
          let '(items, w) := _prepare_collection_items w vs in
          (result MANUAL
             (Some (lit "Collection (" ++ dec (Z.of_nat (List.length vs))
                    ++ lit " films)"))
             [] None (Some items), w)
        else
          match t with
          | Some (c :: s) =>
              let '(ms, w) := _search_tmdb w (c :: s) y dtype in
              match ms with
              | [] => (result NONE (Some (lit "No matches")) ms None None, w)
              | _ =>
                  match sole_year_match ms y with
                  | Some m => (result AUTO None ms (Some m) None, w)
                  | None => (result UNSURE None ms None None, w)
                  end
              end
          | _ => (result NONE (Some (lit "No title")) [] None None, w)
          end
    end.

End Scanner.

End Scan.

(* ================================================================== *)
(** * Review: the operations that update an outcome *)
(* ================================================================== *)

Module Review.

Import Tmdb.

Definition set_status (r : ScanResult) (st : MatchStatus) : ScanResult :=
  {| sr_path := sr_path r; folder_name := folder_name r;
     detected_type := detected_type r;
     extracted_title := extracted_title r;
     extracted_year := extracted_year r;
     videos := videos r; matches := matches r;
     selected_match := selected_match r; status := st;
     new_name := new_name r; error := error r;
     collection_items := collection_items r |}.

Definition select (r : ScanResult) (m : MediaMatch) (st : MatchStatus)
    : ScanResult :=
  {| sr_path := sr_path r; folder_name := folder_name r;
     detected_type := detected_type r;
     extracted_title := extracted_title r;
     extracted_year := extracted_year r;
     videos := videos r; matches := matches r;
     selected_match := Some m; status := st;
     new_name := new_name r; error := error r;
     collection_items := collection_items r |}.

Definition set_new_name (r : ScanResult) (n : str) : ScanResult :=
  {| sr_path := sr_path r; folder_name := folder_name r;
     detected_type := detected_type r;
     extracted_title := extracted_title r;
     extracted_year := extracted_year r;
     videos := videos r; matches := matches r;
     selected_match := selected_match r; status := status r;
     new_name := Some n; error := error r;
     collection_items := collection_items r |}.

Definition set_items (r : ScanResult) (items : list CollectionItem)
    : ScanResult :=
  {| sr_path := sr_path r; folder_name := folder_name r;
     detected_type := detected_type r;
     extracted_title := extracted_title r;
     extracted_year := extracted_year r;
     videos := videos r; matches := matches r;
     selected_match := selected_match r; status := status r;
     new_name := new_name r; error := error r;
     collection_items := Some items |}.

Definition item_set_status (i : CollectionItem) (st : MatchStatus)
    : CollectionItem :=
  {| ci_folder_path := ci_folder_path i; ci_video_path := ci_video_path i;
     ci_video_size := ci_video_size i;
     ci_extracted_title := ci_extracted_title i;
     ci_extracted_year := ci_extracted_year i;
     ci_matches := ci_matches i;
     ci_selected_match := ci_selected_match i; ci_status := st |}.

Definition item_select (i : CollectionItem) (m : MediaMatch)
    (st : MatchStatus) : CollectionItem :=
  {| ci_folder_path := ci_folder_path i; ci_video_path := ci_video_path i;
     ci_video_size := ci_video_size i;
     ci_extracted_title := ci_extracted_title i;
     ci_extracted_year := ci_extracted_year i;
     ci_matches := ci_matches i;
     ci_selected_match := Some m; ci_status := st |}.

(** One answer typed at a [Choice] prompt: ['0'], ['m'] followed by the
    identifier typed at the [ID] prompt, a number (the empty answer is 1),
    or anything else. *)
Inductive answer : Type :=
| Sel0 : answer
| SelM : str -> answer
| SelNum : nat -> answer
| SelOther : answer.

(** [matches[num - 1]] under the guard [1 <= num <= len(matches)]. *)
Definition pick (ms : list MediaMatch) (num : nat) : option MediaMatch :=
  match num with
  | O => None
  | S k => nth_error ms k
  end.

(** The prompt of [interactive_review] for one outcome that is neither
    finished nor a collection.  With candidates the prompt repeats on an
    invalid answer, so the outcome is then unchanged; an exception of
    [_manual_lookup] leaves it unchanged as well. *)
Definition review_result (w : world) (r : ScanResult) (a : answer)
    : ScanResult * world :=
  match matches r with
  | _ :: _ =>
      match a with
      | Sel0 => (set_status r SKIP, w)
      | SelM manual =>
          match _manual_lookup w manual with
          | (Return (Some m), w') => (select r m MANUAL, w')
          | (_, w') => (r, w')
          end
      | SelNum num =>
          match pick (matches r) num with
          | Some m => (select r m AUTO, w)
          | None => (r, w)
          end
      | SelOther => (r, w)
      end
  | [] =>
      match a with
      | SelM manual =>
          match _manual_lookup w manual with
          | (Return (Some m), w') => (select r m MANUAL, w')
          | (Return None, w') => (set_status r SKIP, w')
          | (Raise _, w') => (r, w')
          end
      | _ => (set_status r SKIP, w)
      end
  end.

(** The same prompt inside [handle_collection], for one entry. *)
Definition review_item (w : world) (i : CollectionItem) (a : answer)
    : CollectionItem * world :=
  match ci_matches i with
  | _ :: _ =>
      match a with
      | Sel0 => (item_set_status i SKIP, w)
      | SelM manual =>
          match _manual_lookup w manual with
          | (Return (Some m), w') => (item_select i m MANUAL, w')
          | (_, w') => (i, w')
          end
      | SelNum num =>
          match pick (ci_matches i) num with
          | Some m => (item_select i m AUTO, w)
          | None => (i, w)
          end
      | SelOther => (i, w)
      end
  | [] =>
      match a with
      | SelM manual =>
          match _manual_lookup w manual with
          | (Return (Some m), w') => (item_select i m MANUAL, w')
          | (Return None, w') => (item_set_status i SKIP, w')
          | (Raise _, w') => (i, w')
          end
      | _ => (i, w)
      end
  end.

(** The construction of [new_results] at the end of [handle_collection]. *)
Definition promote (i : CollectionItem) : option ScanResult :=
  match ci_status i, ci_selected_match i with
  | (AUTO | MANUAL) as st, Some m =>
      let p := match ci_folder_path i with
               | Some f => f
               | None => ci_video_path i
               end in
      Some {| sr_path := p; folder_name := Scan.name_of p;
              detected_type := MOVIE;
              extracted_title := ci_extracted_title i;
              extracted_year := ci_extracted_year i;
              videos := []; matches := ci_matches i;
              selected_match := Some m; status := st;
              new_name := None; error := None; collection_items := None |}
  | _, _ => None
  end.

Fixpoint promote_all (items : list CollectionItem) : list ScanResult :=
  match items with
  | [] => []
  | i :: rest =>
      match promote i with
      | Some r => r :: promote_all rest
      | None => promote_all rest
      end
  end.

(** The command typed at the first prompt of [handle_collection]. *)
Inductive collection_cmd : Type :=
| CmdBack : collection_cmd          (* 'q' *)
| CmdSkip : collection_cmd          (* '0' *)
| CmdAccept : collection_cmd        (* '' or 's' *)
| CmdAll : collection_cmd.          (* 'a' *)

(** The review loop over the entries: each entry under review takes the
    next answer. *)
Fixpoint review_items (every : bool) (w : world) (items : list CollectionItem)
    (answers : list answer) : list CollectionItem * world :=
  match items with
  | [] => ([], w)
  | i :: rest =>
      if every || negb (MatchStatus_eqb (ci_status i) AUTO)
      then match answers with
           | a :: answers' =>
               let '(i', w) := review_item w i a in
               let '(rest', w) := review_items every w rest answers' in
               (i' :: rest', w)
           | [] => (items, w)
           end
      else let '(rest', w) := review_items every w rest answers in
           (i :: rest', w)
  end.

(** [handle_collection]: the outcome as it leaves the call, the list the
    call returns, and the world. *)
Definition handle_collection (w : world) (r : ScanResult)
    (cmd : collection_cmd) (answers : list answer)
    : ScanResult * list ScanResult * world :=
  match collection_items r with
  | None | Some [] => (r, [], w)
  | Some items =>
      match cmd with
      | CmdBack => (r, [], w)
      | CmdSkip => (set_status r SKIP, [set_status r SKIP], w)
      | CmdAccept | CmdAll =>
          let every := match cmd with CmdAll => true | _ => false end in
          let '(items', w) := review_items every w items answers in
          (set_status (set_items r items') SKIP, promote_all items', w)
      end
  end.

(** One iteration of [for idx in indices] in [interactive_review]: the
    outcome afterwards, the outcomes appended to [results], the world. *)
Definition review_one (w : world) (r : ScanResult)
    (cmd : collection_cmd) (answers : list answer)
    : ScanResult * list ScanResult * world :=
  match status r with
  | DONE | RENAMED => (r, [], w)
  | _ =>
      if MediaType_eqb (detected_type r) COLLECTION
      then handle_collection w r cmd answers
      else match answers with
           | a :: _ => let '(r', w) := review_result w r a in (r', [], w)
           | [] => (r, [], w)
           end
  end.

(** The update after the ['x'] command of [interactive_review]. *)
Definition mark_renamed (dry_run : bool) (r : ScanResult) : ScanResult :=
  match status r, selected_match r with
  | AUTO, Some _ => if dry_run then r else set_status r RENAMED
  | _, _ => r
  end.

End Review.

(* ================================================================== *)
(** * The filesystem *)
(* ================================================================== *)

Module Fs.

Inductive kind : Type := File | Dir.

(** One entry of the directory tree: its absolute path, whether it is a
    file or a directory, and the device it lives on ([st_dev]). *)
Record entry : Type := { e_path : path; e_kind : kind; e_dev : nat }.

(** The disk is the list of its entries.  There are no links: a path
    resolves to itself. *)
Definition disk := list entry.

Fixpoint path_eqb (a b : path) : bool :=
  match a, b with
  | [], [] => true
  | x :: a', y :: b' => str_eqb x y && path_eqb a' b'
  | _, _ => false
  end.

(** [a] is [b] or an ancestor of [b]. *)
Fixpoint is_prefix (a b : path) : bool :=
  match a, b with
  | [], _ => true
  | x :: a', y :: b' => str_eqb x y && is_prefix a' b'
  | _ :: _, [] => false
  end.

(** [p.parent] and [p / name]. *)
Definition parent (p : path) : path := removelast p.
Definition child (p : path) (name : str) : path := p ++ [name].

Fixpoint lookup (d : disk) (p : path) : option entry :=
  match d with
  | [] => None
  | e :: rest => if path_eqb (e_path e) p then Some e else lookup rest p
  end.

Definition exists_ (d : disk) (p : path) : bool :=
  match lookup d p with Some _ => true | None => false end.

Definition is_dir (d : disk) (p : path) : bool :=
  match lookup d p with
  | Some {| e_kind := Dir |} => true
  | _ => false
  end.

Definition is_file (d : disk) (p : path) : bool :=
  match lookup d p with
  | Some {| e_kind := File |} => true
  | _ => false
  end.

(** [p.stat().st_dev]; [None] is the [OSError] of a missing path. *)
Definition st_dev (d : disk) (p : path) : option nat :=
  option_map e_dev (lookup d p).

(** [list(p.iterdir())]: the entries directly inside [p], in disk order. *)
Definition iterdir (d : disk) (p : path) : list path :=
  map e_path
    (filter (fun e => match e_path e with
                      | [] => false
                      | q => path_eqb (parent q) p
                      end) d).

(** Where a path lands when [src] is renamed to [dst]. *)
Definition retarget (src dst p : path) : path :=
  if is_prefix src p then dst ++ skipn (List.length src) p else p.

Definition move (src dst : path) (e : entry) : entry :=
  {| e_path := retarget src dst (e_path e);
     e_kind := e_kind e; e_dev := e_dev e |}.

Definition remove (p : path) (d : disk) : disk :=
  filter (fun e => negb (path_eqb (e_path e) p)) d.

Definition has_children (d : disk) (p : path) : bool :=
  match iterdir d p with [] => false | _ => true end.

(** [os.rename(src, dst)] with POSIX semantics; [None] is an [OSError].
    [fault] stands for every failure the tree does not determine
    (permissions, a device boundary, an I/O error). *)
Definition os_rename (fault : bool) (d : disk) (src dst : path)
    : option disk :=
  if fault then None
  else
    match lookup d src with
    | None => None                                   (* ENOENT *)
    | Some s =>
        if path_eqb src dst then Some d
        else if is_prefix src dst then None          (* EINVAL *)
        else if negb (is_dir d (parent dst)) then None   (* ENOENT, ENOTDIR *)
        else
          match lookup d dst with
          | None => Some (map (move src dst) d)
          | Some t =>
              match e_kind s, e_kind t with
              | File, File => Some (map (move src dst) (remove dst d))
              | Dir, Dir =>
                  if has_children d dst then None    (* ENOTEMPTY *)
                  else Some (map (move src dst) (remove dst d))
              | _, _ => None                         (* EISDIR, ENOTDIR *)
              end
          end
    end.

(** [p.mkdir()]. *)
Definition mkdir (fault : bool) (d : disk) (p : path) : option disk :=
  if fault then None
  else if exists_ d p then None
  else match lookup d (parent p) with
       | Some {| e_kind := Dir; e_dev := dev |} =>
           match p with
           | [] => None
           | _ => Some (d ++ [ {| e_path := p; e_kind := Dir; e_dev := dev |} ])
           end
       | _ => None
       end.

(** [_same_fs]. *)
Definition _same_fs (d : disk) (a b : path) : bool :=
  match st_dev d (if exists_ d a then a else parent a),
        st_dev d (if exists_ d b then b else parent b) with
  | Some dev_a, Some dev_b => (dev_a =? dev_b)%nat
  | _, _ => false
  end.

(** A well-formed disk: no path occurs twice, and every entry but the
    root sits in a directory of the disk. *)
Definition well_formed (d : disk) : Prop :=
  NoDup (map e_path d) /\
  forall e, In e d -> e_path e <> [] -> is_dir d (parent (e_path e)) = true.

End Fs.

(* ================================================================== *)
(** * The rename engine *)
(* ================================================================== *)

Module Rename.

Import Fs.

Record RenameOp : Type := { old : path; new : path; done : bool }.

(** The renamer and its surroundings: the disk, the step log
    [self._ops], and the faults the coming system calls will meet (one
    flag per call, none once the list is exhausted). *)
Record machine : Type := {
  fs : disk;
  _ops : list RenameOp;
  faults : list bool
}.

Definition next_fault (fl : list bool) : bool * list bool :=
  match fl with
  | [] => (false, [])
  | f :: rest => (f, rest)
  end.

(** [_rename]: the error is the message of the [RenameError] raised. *)
Definition _rename (m : machine) (src dst : path) : machine * option string :=
  if negb (exists_ (fs m) src) then (m, Some "Source missing"%string)
  else if exists_ (fs m) dst && negb (path_eqb src dst)
  then (m, Some "Destination exists"%string)
  else if negb (_same_fs (fs m) src dst)
  then (m, Some "Cross-filesystem moves are not allowed"%string)
  else
    let '(f, rest) := next_fault (faults m) in
    match os_rename f (fs m) src dst with
    | Some d => ({| fs := d; _ops := _ops m; faults := rest |}, None)
    | None =>
        ({| fs := fs m; _ops := _ops m; faults := rest |},
         Some "OS error"%string)
    end.

(** [_do_rename]: the step is logged before the attempt and marked done
    after it. *)
Definition _do_rename (m : machine) (o n : path) : machine * option string :=
  let op := {| old := o; new := n; done := false |} in
  let logged := _ops m ++ [op] in
  match _rename {| fs := fs m; _ops := logged; faults := faults m |} o n with
  | (m', None) =>
      ({| fs := fs m';
          _ops := _ops m ++ [ {| old := o; new := n; done := true |} ];
          faults := faults m' |}, None)
  | (m', Some e) => (m', Some e)
  end.

(** What [_rollback] does with one step: it renames the entry back and
    prints a line, fails and prints the error, or finds nothing at the new
    path and passes on in silence. *)
Inductive undo_outcome : Type := Restored | Reported | Passed.

(** The loop [for op in reversed(done)]. *)
Fixpoint undo (d : disk) (steps : list RenameOp) (fl : list bool)
    : disk * list (RenameOp * undo_outcome) :=
  match steps with
  | [] => (d, [])
  | op :: rest =>
      if exists_ d (new op)
      then
        let '(f, fl') := next_fault fl in
        match os_rename f d (new op) (old op) with
        | Some d' =>
            let '(d'', tr) := undo d' rest fl' in (d'', (op, Restored) :: tr)
        | None =>
            let '(d'', tr) := undo d rest fl' in (d'', (op, Reported) :: tr)
        end
      else
        let '(d', tr) := undo d rest fl in (d', (op, Passed) :: tr)
  end.

(** [_rollback], given the faults its own system calls will meet. *)
Definition _rollback (m : machine) (fl : list bool)
    : machine * list (RenameOp * undo_outcome) :=
  let completed := filter done (_ops m) in
  match completed with
  | [] => ({| fs := fs m; _ops := []; faults := faults m |}, [])
  | _ =>
      let '(d, tr) := undo (fs m) (rev completed) fl in
      ({| fs := d; _ops := []; faults := faults m |}, tr)
  end.

Definition _commit (m : machine) : machine :=
  {| fs := fs m; _ops := []; faults := faults m |}.

(** [name.rfind('.')]. *)
Fixpoint rfind_dot (i : nat) (s : str) : option nat :=
  match s with
  | [] => None
  | c :: t =>
      match rfind_dot (S i) t with
      | Some j => Some j
      | None => if ch_eqb c "."%char then Some i else None
      end
  end.

(** [Path.suffix]: the last extension of a name, dot included. *)
Definition suffix (name : str) : str :=
  match rfind_dot 0 name with
  | Some i =>
      if (0 <? i)%nat && (i <? List.length name - 1)%nat then skipn i name
      else []
  | None => []
  end.

Definition RENAME_EXT : list str :=
  map lit [ ".mkv"; ".mp4"; ".avi"; ".m4v"; ".nfo" ]%string.

Definition SUB_EXT : list str :=
  map lit [ ".srt"; ".sub"; ".ass"; ".ssa"; ".vtt"; ".idx"; ".sup" ]%string.

Definition LANG_MAP : list (string * string) :=
  [ ("ger", "de"); ("german", "de"); ("deu", "de"); ("deutsch", "de");
    ("eng", "en"); ("english", "en"); ("fre", "fr"); ("french", "fr");
    ("spa", "es"); ("spanish", "es"); ("ita", "it"); ("italian", "it") ]%string.

Definition dot_or_underscore : Re.regex :=
  Re.Cls (fun c => ch_eqb c "."%char || ch_eqb c "_"%char).

(** The pattern [[._]{code}[._]]. *)
Definition delimited (token : string) : Re.regex :=
  Re.seq [dot_or_underscore; Re.word token; dot_or_underscore].

Definition _sub_lang (filename : str) : str :=
  let low := lower filename in
  match find (fun kv => Re.search (delimited (fst kv)) low) LANG_MAP with
  | Some (_, norm) => lit "." ++ lit norm
  | None =>
      if Re.search (delimited "forced") low then lit ".forced" else []
  end.

Definition mem (x : str) (l : list str) : bool := existsb (str_eqb x) l.

(** The name a file directly inside the folder is to get, if any. *)
Definition new_file_name (new_name : str) (item : path) : option str :=
  let ext := lower (suffix (Scan.name_of item)) in
  if mem ext RENAME_EXT then Some (new_name ++ ext)
  else if mem ext SUB_EXT
  then Some (new_name ++ _sub_lang (Scan.name_of item) ++ ext)
  else None.

(** The loop [for item in list(working.iterdir())]. *)
Fixpoint rename_files (m : machine) (working : path) (new_name : str)
    (items : list path) : machine * option string :=
  match items with
  | [] => (m, None)
  | item :: rest =>
      if negb (is_file (fs m) item)
      then rename_files m working new_name rest
      else
        match new_file_name new_name item with
        | Some (c :: fn) =>
            if negb (str_eqb (Scan.name_of item) (c :: fn))
               && negb (exists_ (fs m) (child working (c :: fn)))
            then
              match _do_rename m item (child working (c :: fn)) with
              | (m', None) => rename_files m' working new_name rest
              | (m', Some e) => (m', Some e)
              end
            else rename_files m working new_name rest
        | _ => rename_files m working new_name rest
        end
  end.

(** [list(working.iterdir())], which can raise like any other system
    call. *)
Definition list_dir (m : machine) (working : path)
    : machine * option (list path) :=
  let '(f, rest) := next_fault (faults m) in
  let m' := {| fs := fs m; _ops := _ops m; faults := rest |} in
  if f then (m', None) else (m', Some (iterdir (fs m) working)).

(** The part of the [try] body that renames the files of [working]. *)
Definition rename_inside (m : machine) (working : path) (new_name : str)
    : machine * option string :=
  match list_dir m working with
  | (m, None) => (m, Some "OS error"%string)
  | (m, Some items) => rename_files m working new_name items
  end.

(** The name of the temporary sibling,
    [f".tmp_{int(time.time() * 1000)}_{match.tmdb_id}"]. *)
Definition temp_name (now id : Z) : str :=
  lit ".tmp_" ++ Tmdb.dec now ++ lit "_" ++ Tmdb.dec id.

(** The body of the [try] in [execute_renames], for the outcome at [p]. *)
Definition try_rename (m : machine) (p : path) (new_name : str)
    (id now : Z) : machine * option string :=
  let new_dir := child (parent p) new_name in
  if is_dir (fs m) p
  then
    if negb (_same_fs (fs m) p new_dir) then (m, Some "Cross-Filesystem"%string)
    else if negb (str_eqb (Scan.name_of p) new_name)
    then
      if exists_ (fs m) new_dir then (m, Some "Target already exists"%string)
      else
        let temp := child (parent p) (temp_name now id) in
        match _do_rename m p temp with
        | (m, Some e) => (m, Some e)
        | (m, None) =>
            match _do_rename m temp new_dir with
            | (m, Some e) => (m, Some e)
            | (m, None) => rename_inside m new_dir new_name
            end
        end
    else rename_inside m p new_name
  else
    if exists_ (fs m) new_dir
    then (m, Some "Target folder already exists"%string)
    else
      let '(f, rest) := next_fault (faults m) in
      match mkdir f (fs m) new_dir with
      | None =>
          ({| fs := fs m; _ops := _ops m; faults := rest |},
           Some "OS error"%string)
      | Some d =>
          _do_rename {| fs := d; _ops := _ops m; faults := rest |} p
            (child new_dir (new_name ++ suffix (Scan.name_of p)))
      end.

(** How the transaction for one outcome ends: committed, or rolled back
    with the message printed, the step log as the failure left it, and
    what the rollback did with each completed step. *)
Inductive ending : Type :=
| Committed : machine -> ending
| RolledBack : string -> list RenameOp -> machine ->
               list (RenameOp * undo_outcome) -> ending.

(** The [try] statement of [execute_renames] with its handlers, entered
    with a cleared step log.  [undo_faults] are the faults the system
    calls of the rollback will meet. *)
Definition transaction (m : machine) (p : path) (new_name : str)
    (id now : Z) (undo_faults : list bool) : ending :=
  let m := {| fs := fs m; _ops := []; faults := faults m |} in
  match try_rename m p new_name id now with
  | (m', None) => Committed (_commit m')
  | (m', Some e) =>
      let '(m'', tr) := _rollback m' undo_faults in
      RolledBack e (_ops m') m'' tr
  end.

End Rename.

(* ================================================================== *)
(** * [execute_renames] *)
(* ================================================================== *)

Module Execute.

Import Tmdb Fs Rename.

(** The pattern [^tt\d{7,}$]. *)
Definition imdb_id_7plus : Re.regex :=
  Re.seq [Re.word "tt"; Re.at_least 7 Re.digit].

Definition with_imdb (mt : MediaMatch) (imdb : option str) : MediaMatch :=
  {| tmdb_id := tmdb_id mt; imdb_id := imdb; title := title mt;
     original_title := original_title mt; year := year mt;
     media_type := media_type mt; popularity := popularity mt |}.

(** [a or b] on strings. *)
Definition or_else (a b : str) : str :=
  match a with [] => b | _ => a end.

(** [f"{title} ({year}) [imdbid-{match.imdb_id}]"]. *)
Definition canonical (mt : MediaMatch) (imdb : str) : str :=
  or_else (title mt) (original_title mt) ++ lit " ("
  ++ or_else (year mt) (lit "0000") ++ lit ") [imdbid-" ++ imdb ++ lit "]".

Inductive verdict : Type := Ok | Skipped | Err.

(** The selection test of [to_rename]. *)
Definition ready (r : ScanResult) : bool :=
  match status r, selected_match r with
  | (AUTO | MANUAL), Some _ => true
  | _, _ => false
  end.

(** The body of [for result in to_rename].  [now] is the clock read for
    the temporary name; the identifier fetched for the match is stored in
    the selected match. *)
Definition execute_one (dry_run : bool) (w : world) (m : machine)
    (r : ScanResult) (now : Z) (undo_faults : list bool)
    : ScanResult * world * machine * verdict :=
  let m := {| fs := fs m; _ops := []; faults := faults m |} in
  match selected_match r with
  | None => (r, w, m, Skipped)
  | Some mt =>
      let '(imdb, w) :=
        match imdb_id mt with
        | Some (c :: s) => (Some (c :: s), w)
        | _ => _get_imdb_id w (tmdb_id mt) (media_type mt)
        end in
      let r := Review.select r (with_imdb mt imdb) (status r) in
      match imdb with
      | Some (c :: s) =>
          if negb (Re.match_anchored imdb_id_7plus (c :: s))
          then (r, w, m, Err)
          else
            match Sanitize._sanitize (canonical mt (c :: s)) with
            | Raise _ => (r, w, m, Err)
            | Return name =>
                let r := Review.set_new_name r name in
                if dry_run then (r, w, m, Ok)
                else
                  match transaction m (sr_path r) name (tmdb_id mt) now
                          undo_faults with
                  | Committed m' => (Review.set_status r RENAMED, w, m', Ok)
                  | RolledBack _ _ m' _ => (r, w, m', Err)
                  end
            end
      | _ => (r, w, m, Err)
      end
  end.

Record tally : Type := { n_ok : nat; n_skip : nat; n_err : nat }.

Definition count (t : tally) (v : verdict) : tally :=
  match v with
  | Ok => {| n_ok := S (n_ok t); n_skip := n_skip t; n_err := n_err t |}
  | Skipped => {| n_ok := n_ok t; n_skip := S (n_skip t); n_err := n_err t |}
  | Err => {| n_ok := n_ok t; n_skip := n_skip t; n_err := S (n_err t) |}
  end.

(** The loop over [to_rename], walking [results] so that the outcomes it
    updates stay in place.  [env] gives, for each outcome renamed, the
    clock reading and the faults of its rollback. *)
Fixpoint execute_loop (dry_run : bool) (w : world) (m : machine)
    (rs : list ScanResult) (env : list (Z * list bool)) (t : tally)
    : list ScanResult * world * machine * tally :=
  match rs with
  | [] => ([], w, m, t)
  | r :: rest =>
      if ready r
      then
        let '(now, uf) := match env with e :: _ => e | [] => (0%Z, []) end in
        let '(r', w, m, v) := execute_one dry_run w m r now uf in
        let '(rest', w, m, t) :=
          execute_loop dry_run w m rest (tl env) (count t v) in
        (r' :: rest', w, m, t)
      else
        let '(rest', w, m, t) := execute_loop dry_run w m rest env t in
        (r :: rest', w, m, t)
  end.

Definition execute_renames (dry_run : bool) (w : world) (m : machine)
    (rs : list ScanResult) (env : list (Z * list bool))
    : list ScanResult * world * machine * tally :=
  if existsb ready rs
  then execute_loop dry_run w m rs env {| n_ok := 0; n_skip := 0; n_err := 0 |}
  else (rs, w, m, {| n_ok := 0; n_skip := List.length rs; n_err := 0 |}).

End Execute.

(* ================================================================== *)
(** * Properties: text and sanitisation *)
(* ================================================================== *)

Module TextFacts.

Lemma str_eqb_eq (a b : str) : str_eqb a b = true <-> a = b.
Proof.
  revert b; induction a as [|x a IH]; intros [|y b]; simpl; split;
    try congruence; try discriminate; auto.
  - intros H. apply andb_true_iff in H as [H1 H2].
    apply Ascii.eqb_eq in H1. apply IH in H2. congruence.
  - intros H. injection H as -> ->. apply andb_true_iff. split.
    + apply Ascii.eqb_refl.
    + now apply IH.
Qed.

Lemma str_eqb_refl (a : str) : str_eqb a a = true.
Proof. now apply str_eqb_eq. Qed.

Lemma str_eqb_neq (a b : str) : str_eqb a b = false <-> a <> b.
Proof.
  split.
  - intros H E. apply str_eqb_eq in E. congruence.
  - intros H. destruct (str_eqb a b) eqn:E; auto.
    apply str_eqb_eq in E. contradiction.
Qed.

(** [lstrip] returns a suffix whose first character is kept. *)
Lemma lstrip_suffix (p : ascii -> bool) (s : str) :
  exists pre, s = pre ++ lstrip p s.
Proof.
  induction s as [|c t [pre IH]]; simpl.
  - now exists [].
  - destruct (p c).
    + exists (c :: pre). simpl. now f_equal.
    + now exists [].
Qed.

Lemma lstrip_head (p : ascii -> bool) (s : str) (c : ascii) (t : str) :
  lstrip p s = c :: t -> p c = false.
Proof.
  induction s as [|x s IH]; simpl; [discriminate|].
  destruct (p x) eqn:E; auto.
  intros H. injection H as <- _. exact E.
Qed.

Lemma rstrip_prefix (p : ascii -> bool) (s : str) :
  exists post, s = rstrip p s ++ post.
Proof.
  unfold rstrip. destruct (lstrip_suffix p (rev s)) as [pre H].
  exists (rev pre).
  rewrite <- rev_app_distr, <- H. now rewrite rev_involutive.
Qed.

Lemma rstrip_last (p : ascii -> bool) (s t : str) (c : ascii) :
  rstrip p s = t ++ [c] -> p c = false.
Proof.
  unfold rstrip. intros H.
  apply (f_equal (@rev ascii)) in H.
  rewrite rev_involutive, rev_app_distr in H. simpl in H.
  now apply lstrip_head in H.
Qed.

(** [strip] returns a piece of its argument that neither starts nor ends
    with a stripped character. *)
Lemma strip_infix (p : ascii -> bool) (s : str) :
  exists pre post, s = pre ++ strip p s ++ post.
Proof.
  unfold strip.
  destruct (lstrip_suffix p s) as [pre H1].
  destruct (rstrip_prefix p (lstrip p s)) as [post H2].
  exists pre, post. now rewrite <- H2.
Qed.

Lemma strip_first (p : ascii -> bool) (s t : str) (c : ascii) :
  strip p s = c :: t -> p c = false.
Proof.
  unfold strip. intros H.
  destruct (rstrip_prefix p (lstrip p s)) as [post H2].
  rewrite H in H2. simpl in H2.
  now apply lstrip_head in H2.
Qed.

Lemma strip_last (p : ascii -> bool) (s t : str) (c : ascii) :
  strip p s = t ++ [c] -> p c = false.
Proof. unfold strip. apply rstrip_last. Qed.

(** No two neighbours of [s] are both whitespace. *)
Definition single_spaced (s : str) : Prop :=
  forall l1 a b l2, s = l1 ++ a :: b :: l2 ->
    is_space a = true -> is_space b = true -> False.

Lemma single_spaced_infix (pre s post : str) :
  single_spaced (pre ++ s ++ post) -> single_spaced s.
Proof.
  intros H l1 a b l2 E. subst s.
  apply (H (pre ++ l1) a b (l2 ++ post)).
  now rewrite <- !app_assoc.
Qed.

Lemma single_spaced_cons (c : ascii) (s : str) :
  single_spaced s ->
  (is_space c = true -> match s with [] => True | x :: _ => is_space x = false end) ->
  single_spaced (c :: s).
Proof.
  intros Hs Hc [|x l1] a b l2 E; simpl in E.
  - injection E as <- E. subst s. intros Ha Hb.
    specialize (Hc Ha). simpl in Hc. congruence.
  - injection E as _ E. now apply (Hs l1 a b l2).
Qed.

Lemma collapse_ws_from_spec (run : bool) (s : str) :
  single_spaced (collapse_ws_from run s) /\
  (run = true ->
   match collapse_ws_from run s with
   | [] => True
   | x :: _ => is_space x = false
   end) /\
  (forall c, In c (collapse_ws_from run s) ->
     is_space c = true -> c = " "%char).
Proof.
  revert run. induction s as [|c t IH]; intros run; simpl.
  - repeat split; try easy.
    intros [|? ?] ? ? ? E; discriminate.
  - destruct (is_space c) eqn:Ec.
    + destruct run.
      * apply IH.
      * destruct (IH true) as (H1 & H2 & H3). repeat split.
        -- apply single_spaced_cons; auto.
        -- discriminate.
        -- intros x [<-|Hx] Hs; auto.
    + destruct (IH false) as (H1 & H2 & H3). repeat split.
      * apply single_spaced_cons; auto. congruence.
      * intros _. exact Ec.
      * intros x [<-|Hx] Hs; [congruence|auto].
Qed.

End TextFacts.

Module SanitizeFacts.

Import TextFacts Sanitize.

(** A control character: Unicode category Cc, that is U+0000-U+001F and
    U+007F-U+009F. *)
Definition control_character (c : ascii) : bool :=
  between 0 31 c || between 127 159 c.

Lemma remove_all_forbidden (cs : list ascii) (s : str) (c : ascii) :
  In c (fold_left (fun n x => remove_char x n) cs s) ->
  In c s /\ ~ In c cs.
Proof.
  revert s. induction cs as [|x cs IH]; intros s; simpl.
  - tauto.
  - intros H. apply IH in H as [H1 H2].
    unfold remove_char in H1. apply filter_In in H1 as [H1 H3].
    split; auto. intros [->|H]; auto.
    unfold ch_eqb in H3. rewrite Ascii.eqb_refl in H3. discriminate.
Qed.

(** Every character of the cleaned name is a character of the name that
    is neither forbidden nor in U+0000-U+001F, or is a space. *)
Lemma cleaned_chars (name : str) (c : ascii) :
  In c (cleaned name) ->
  ~ In c forbidden /\ between 0 31 c = false.
Proof.
  unfold cleaned. intros H.
  destruct (strip_infix dot_or_space
              (collapse_ws (drop_c0
                 (fold_left (fun n x => remove_char x n) forbidden name))))
    as (pre & post & E).
  assert (Hin : In c (collapse_ws (drop_c0
                 (fold_left (fun n x => remove_char x n) forbidden name)))).
  { rewrite E. apply in_or_app. right. apply in_or_app. now left. }
  clear E H.
  assert (G : forall run s, In c (collapse_ws_from run s) ->
                c = " "%char \/ In c s).
  { intros run s; revert run. induction s as [|x t IH]; intros run; simpl; auto.
    destruct (is_space x).
    - destruct run; simpl.
      + intros Hc. destruct (IH _ Hc); auto.
      + intros [<-|Hc]; auto. destruct (IH _ Hc); auto.
    - simpl. intros [<-|Hc]; auto. destruct (IH _ Hc); auto. }
  apply G in Hin as [->|Hin].
  - split; [|reflexivity].
    unfold forbidden. simpl. intros H.
    repeat (destruct H as [H|H]; [discriminate H|]). exact H.
  - unfold drop_c0 in Hin. apply filter_In in Hin as [Hin Hc].
    apply remove_all_forbidden in Hin as [_ Hf].
    split; auto. now apply negb_true_iff in Hc.
Qed.

Lemma cleaned_spacing (name : str) :
  single_spaced (cleaned name) /\
  (forall c, In c (cleaned name) -> is_space c = true -> c = " "%char).
Proof.
  unfold cleaned.
  set (s := collapse_ws _).
  destruct (strip_infix dot_or_space s) as (pre & post & E).
  destruct (collapse_ws_from_spec false
    (drop_c0 (fold_left (fun n x => remove_char x n) forbidden name)))
    as (H1 & _ & H3).
  fold (collapse_ws (drop_c0
    (fold_left (fun n x => remove_char x n) forbidden name))) in H1, H3.
  fold s in H1, H3. split.
  - apply single_spaced_infix with (pre := pre) (post := post).
    now rewrite <- E.
  - intros c Hc. apply H3. rewrite E.
    apply in_or_app. right. apply in_or_app. now left.
Qed.

Lemma cleaned_ends (name : str) :
  (forall c t, cleaned name = c :: t -> dot_or_space c = false) /\
  (forall t c, cleaned name = t ++ [c] -> dot_or_space c = false).
Proof.
  unfold cleaned. split; intros; eauto using strip_first, strip_last.
Qed.

(** [_sanitize] fails exactly on the names whose cleaned form is empty or
    longer than 200 characters, and otherwise returns the cleaned form
    whole. *)
Lemma _sanitize_cases (name : str) :
  match _sanitize name with
  | Return r =>
      r = cleaned name /\ r <> [] /\ (List.length r <= 200)%nat
  | Raise _ => cleaned name = [] \/ (200 < List.length (cleaned name))%nat
  end.
Proof.
  unfold _sanitize. destruct name as [|c0 name0].
  - left. reflexivity.
  - destruct (cleaned (c0 :: name0)) as [|c t] eqn:E.
    + now left.
    + destruct (200 <? List.length (c :: t))%nat eqn:L.
      * right. now apply Nat.ltb_lt.
      * repeat split; try easy. now apply Nat.ltb_ge.
Qed.

(** C9 (as the code has it).  For every name: [_sanitize] either raises,
    exactly when the name cleaned of the nine characters of [forbidden] and of the
    control characters U+0000-U+001F, with whitespace runs collapsed and
    dots and spaces trimmed at both ends, is empty or longer than 200
    characters; or it returns that cleaned name untruncated, which then
    holds none of the nine characters, no character in U+0000-U+001F, no
    two adjacent whitespace characters, only plain spaces as whitespace,
    and neither starts nor ends with a dot or a space. *)
Theorem C9_sanitize_amended (name : str) :
  match _sanitize name with
  | Raise _ => cleaned name = [] \/ (200 < List.length (cleaned name))%nat
  | Return r =>
      r = cleaned name /\ r <> [] /\ (List.length r <= 200)%nat /\
      Forall (fun c => ~ In c forbidden /\ between 0 31 c = false) r /\
      single_spaced r /\
      Forall (fun c => is_space c = true -> c = " "%char) r /\
      (forall c t, r = c :: t -> dot_or_space c = false) /\
      (forall t c, r = t ++ [c] -> dot_or_space c = false)
  end.
Proof.
  pose proof (_sanitize_cases name) as H.
  destruct (_sanitize name) as [r|msg]; [|exact H].
  destruct H as (-> & Hne & Hlen).
  split; [reflexivity|]. split; [exact Hne|]. split; [exact Hlen|].
  split. { apply Forall_forall. intros c Hc. now apply cleaned_chars in Hc. }
  split. { apply cleaned_spacing. }
  split. { apply Forall_forall. apply cleaned_spacing. }
  split; apply cleaned_ends.
Qed.

(** C9 fails as stated: the control character U+007F (DEL) survives
    sanitisation. *)
Lemma C9_del_survives :
  _sanitize (lit "a" ++ [chr 127] ++ lit "b")
    = Return (lit "a" ++ [chr 127] ++ lit "b") /\
  existsb control_character (lit "a" ++ [chr 127] ++ lit "b") = true.
Proof. split; reflexivity. Qed.

End SanitizeFacts.

(* ================================================================== *)
(** * Properties: the catalogue client *)
(* ================================================================== *)

Module RequestFacts.

Import Tmdb.

(** The result and the cache a final answer leaves behind. *)
Definition settled (a : response) (rq : request) (c : list (request * json))
    : option json * list (request * json) :=
  match a with
  | Http200 d => (Some d, (rq, d) :: c)
  | _ => (None, c)
  end.

Lemma request_loop_rate_limited (pre : list (request -> response))
    (a : request -> response) (rest : list (request -> response))
    (c : list (request * json)) (log : list request) (zz : nat)
    (rq : request) :
  cache_get rq c = None ->
  Forall (fun f => f rq = HttpError 429) pre ->
  a rq <> HttpError 429 ->
  request_loop (pre ++ a :: rest) c log zz rq =
    (fst (settled (a rq) rq c),
     {| cache := snd (settled (a rq) rq c); net := rest;
        sent := log ++ repeat rq (S (List.length pre));
        slept := zz + 2 * List.length pre |}).
Proof.
  intros Hc Hpre Ha. revert log zz.
  induction pre as [|f pre IH]; intros log zz; simpl.
  - rewrite Hc. destruct (a rq) as [d|e|] eqn:E; simpl.
    + now rewrite Nat.add_0_r.
    + destruct (e =? 429)%nat eqn:E429.
      * apply Nat.eqb_eq in E429. subst e. contradiction.
      * now rewrite Nat.add_0_r.
    + now rewrite Nat.add_0_r.
  - rewrite Hc. inversion Hpre as [|? ? Hf Hpre']; subst.
    rewrite Hf. simpl. rewrite (IH Hpre').
    f_equal. f_equal.
    + now rewrite <- app_assoc.
    + lia.
Qed.

(** A catalogue that answers with nothing but rate limits until it stops
    answering: the request is tried as long as there is an answer. *)
Lemma request_loop_always_limited (pre : list (request -> response))
    (c : list (request * json)) (log : list request) (zz : nat)
    (rq : request) :
  cache_get rq c = None ->
  Forall (fun f => f rq = HttpError 429) pre ->
  request_loop pre c log zz rq =
    (None,
     {| cache := c; net := [];
        sent := log ++ repeat rq (S (List.length pre));
        slept := zz + 2 * List.length pre |}).
Proof.
  intros Hc Hpre. revert log zz.
  induction pre as [|f pre IH]; intros log zz; simpl.
  - rewrite Hc. now rewrite Nat.add_0_r.
  - rewrite Hc. inversion Hpre as [|? ? Hf Hpre']; subst.
    rewrite Hf. simpl. rewrite (IH Hpre').
    f_equal. f_equal.
    + now rewrite <- app_assoc.
    + lia.
Qed.

(** C3 (as the code has it).  A request that is not in the cache and is
    answered by a rate limit (HTTP 429) any number of times before its
    first other answer sleeps two seconds after each rate limit and asks
    again each time; the first other answer settles it: a payload is
    returned and cached, anything else gives no data.  The attempts made
    are one more than the rate limits met. *)
Theorem C3_retry_while_rate_limited (w : world) (endpoint : str)
    (params : list (str * str)) (pre : list (request -> response))
    (a : request -> response) (rest : list (request -> response)) :
  cache_get (endpoint, params) (cache w) = None ->
  net w = pre ++ a :: rest ->
  Forall (fun f => f (endpoint, params) = HttpError 429) pre ->
  a (endpoint, params) <> HttpError 429 ->
  _tmdb_request w endpoint params =
    (fst (settled (a (endpoint, params)) (endpoint, params) (cache w)),
     {| cache := snd (settled (a (endpoint, params)) (endpoint, params) (cache w));
        net := rest;
        sent := sent w ++ repeat (endpoint, params) (S (List.length pre));
        slept := slept w + 2 * List.length pre |}).
Proof.
  intros Hc Hn Hpre Ha. unfold _tmdb_request. rewrite Hn.
  now apply request_loop_rate_limited.
Qed.

(** A catalogue that is rate limited twice and then answers. *)
Definition twice_limited : world :=
  {| cache := [];
     net := [ (fun _ => HttpError 429); (fun _ => HttpError 429);
              (fun _ => Http200 (JObj [ (lit "images", JObj []) ])) ];
     sent := []; slept := 0 |}.

Lemma C3_retry_while_rate_limited_witness :
  _tmdb_request twice_limited (lit "/configuration") [] =
    (Some (JObj [ (lit "images", JObj []) ]),
     {| cache := [ ((lit "/configuration", []),
                    JObj [ (lit "images", JObj []) ]) ];
        net := [];
        sent := repeat (lit "/configuration", []) 3;
        slept := 4 |}).
Proof.
  apply (@C3_retry_while_rate_limited twice_limited (lit "/configuration") []
           [ (fun _ => HttpError 429); (fun _ => HttpError 429) ]
           (fun _ => Http200 (JObj [ (lit "images", JObj []) ])) []).
  - reflexivity.
  - reflexivity.
  - repeat constructor.
  - discriminate.
Defined.

(** C3 fails as stated: when the retry is rate limited too, the request
    is not given up; a third attempt is made and its payload returned. *)
Lemma C3_second_retry :
  fst (_tmdb_request twice_limited (lit "/configuration") [])
    = Some (JObj [ (lit "images", JObj []) ]) /\
  List.length (sent (snd (_tmdb_request twice_limited
                            (lit "/configuration") []))) = 3 /\
  slept (snd (_tmdb_request twice_limited (lit "/configuration") [])) = 4.
Proof. repeat split. Qed.

End RequestFacts.

Module LookupFacts.

Import Tmdb TextFacts.

Lemma isdigit_not_tt (manual : str) :
  isdigit manual = true -> startswith (lit "tt") manual = false.
Proof.
  destruct manual as [|c s]; [discriminate|].
  intros H. change (py_isdigit_char c && forallb py_isdigit_char s = true) in H.
  apply andb_true_iff in H as [H _].
  change (ch_eqb "t" c && startswith (lit "t") s = false).
  destruct (ch_eqb "t" c) eqn:E; [|reflexivity].
  apply Ascii.eqb_eq in E. subst c. vm_compute in H. discriminate H.
Qed.

Lemma tt_not_isdigit (s : str) : isdigit (lit "tt" ++ s) = false.
Proof. reflexivity. Qed.

(** What the first block does with an all-digit input of length 7 or
    more: [manual] leaves it with the prefix [tt]. *)
Lemma lookup_by_imdb_rebinds (w : world) (manual : str) :
  isdigit manual = true -> (7 <= List.length manual)%nat ->
  fst (fst (lookup_by_imdb w manual)) = lit "tt" ++ manual.
Proof.
  intros Hd Hl. unfold lookup_by_imdb.
  apply Nat.leb_le in Hl.
  rewrite (isdigit_not_tt _ Hd), Hd, Hl. cbn [orb andb negb].
  destruct (Re.match_anchored imdb_id_78 (lit "tt" ++ manual)); [|reflexivity].
  destruct (_tmdb_request w _ _) as [[d|] w']; [|reflexivity].
  destruct (truthy d); [|reflexivity].
  destruct (get_list "movie_results" d ++ get_list "tv_results" d);
    reflexivity.
Qed.

(** C10, the behaviour of the code.  For an input [str.isdigit] accepts,
    of length 7 or more, [_manual_lookup] returns what the first block
    found, be it nothing, and leaves the world as that block left it: the
    second block, which resolves a raw catalogue identifier, sees the
    rebound [manual] and never runs.  An input that neither starts with
    [tt] nor is all digits returns nothing and leaves the world alone. *)
Theorem C10_manual_lookup (w : world) (manual : str) :
  (isdigit manual = true -> (7 <= List.length manual)%nat ->
   _manual_lookup w manual =
     (Return (snd (fst (lookup_by_imdb w manual))),
      snd (lookup_by_imdb w manual))) /\
  (startswith (lit "tt") manual = false -> isdigit manual = false ->
   _manual_lookup w manual = (Return None, w)).
Proof.
  split.
  - intros Hd Hl.
    pose proof (lookup_by_imdb_rebinds w manual Hd Hl) as Hm.
    unfold _manual_lookup.
    destruct manual as [|c s]; [discriminate|].
    destruct (lookup_by_imdb w (c :: s)) as [[manual' hit] w'].
    simpl in Hm. subst manual'. simpl.
    destruct hit; reflexivity.
  - intros Ht Hd. unfold _manual_lookup.
    destruct manual as [|c s]; [reflexivity|].
    unfold lookup_by_imdb. rewrite Ht, Hd. simpl.
    unfold lookup_by_tmdb. now rewrite Hd.
Qed.

(** A catalogue that knows the title with catalogue identifier 1234567
    and no title with the cross-reference identifier tt1234567. *)
Definition catalogue_1234567 (rq : request) : response :=
  if str_eqb (fst rq) (lit "/movie/1234567")
  then Http200 (JObj [ (lit "id", JInt 1234567);
                       (lit "title", JStr (lit "Example")) ])
  else if startswith (lit "/find/") (fst rq)
  then Http200 (JObj [ (lit "movie_results", JArr []);
                       (lit "tv_results", JArr []) ])
  else Failure.

Definition world_1234567 : world :=
  {| cache := []; net := repeat catalogue_1234567 4; sent := []; slept := 0 |}.

(** The failing input of C10: the digits 1234567 are looked up as
    tt1234567 only.  One request is sent, to [/find/tt1234567]; the
    lookup returns nothing although [/movie/1234567] would have answered,
    as the second block shows when it is given the digits. *)
Lemma C10_manual_lookup_witness :
  (_manual_lookup world_1234567 (lit "1234567") =
     (Return None,
      {| cache := [ ((lit "/find/tt1234567",
                      [ (lit "external_source", lit "imdb_id") ]),
                     JObj [ (lit "movie_results", JArr []);
                            (lit "tv_results", JArr []) ]) ];
         net := repeat catalogue_1234567 3;
         sent := [ (lit "/find/tt1234567",
                    [ (lit "external_source", lit "imdb_id") ]) ];
         slept := 0 |})) /\
  (_manual_lookup world_1234567 (lit "12-34") = (Return None, world_1234567)) /\
  option_map tmdb_id
    match fst (lookup_by_tmdb world_1234567 (lit "1234567")) with
    | Return o => o
    | Raise _ => None
    end = Some 1234567%Z.
Proof.
  split; [|split].
  - rewrite (proj1 (C10_manual_lookup world_1234567 (lit "1234567")));
      reflexivity.
  - apply (proj2 (C10_manual_lookup world_1234567 (lit "12-34")));
      reflexivity.
  - vm_compute. reflexivity.
Defined.

End LookupFacts.

(* ================================================================== *)
(** * Properties: the stable sort *)
(* ================================================================== *)

Module SortFacts.

Import Tmdb.

Section SortBy.

Variable A : Type.
Variable lt : A -> A -> bool.

(** [a] does not come after [b]. *)
Definition le (a b : A) : Prop := lt b a = false.

Hypothesis lt_asym : forall a b, lt a b = true -> lt b a = false.
Hypothesis le_trans : forall a b c, le a b -> le b c -> le a c.

Lemma insert_by_perm (x : A) (l : list A) :
  Permutation (insert_by lt x l) (x :: l).
Proof.
  induction l as [|y t IH]; simpl; auto.
  destruct (lt x y); auto.
  rewrite IH. apply perm_swap.
Qed.

Lemma fold_insert_perm (l acc : list A) :
  Permutation (fold_left (fun acc x => insert_by lt x acc) l acc) (acc ++ l).
Proof.
  revert acc. induction l as [|x l IH]; intros acc; simpl.
  - now rewrite app_nil_r.
  - rewrite IH, insert_by_perm. simpl. apply Permutation_middle.
Qed.

Lemma sort_by_perm (l : list A) : Permutation (sort_by lt l) l.
Proof. unfold sort_by. now rewrite fold_insert_perm. Qed.

Lemma insert_by_sorted (x : A) (l : list A) :
  StronglySorted le l -> StronglySorted le (insert_by lt x l).
Proof.
  induction 1 as [|y t Hs IH Hy]; simpl.
  - repeat constructor.
  - destruct (lt x y) eqn:E.
    + apply lt_asym in E. constructor.
      * now constructor.
      * constructor; [exact E|].
        eapply Forall_impl; [|exact Hy]. intros z Hz.
        now apply le_trans with y.
    + constructor; auto.
      apply Forall_forall. intros z Hz.
      apply (Permutation_in _ (insert_by_perm x t)) in Hz.
      destruct Hz as [<-|Hz]; [exact E|].
      rewrite Forall_forall in Hy. auto.
Qed.

Lemma fold_insert_sorted (l acc : list A) :
  StronglySorted le acc ->
  StronglySorted le (fold_left (fun acc x => insert_by lt x acc) l acc).
Proof.
  revert acc. induction l as [|x l IH]; intros acc H; simpl; auto.
  apply IH. now apply insert_by_sorted.
Qed.

Lemma sort_by_sorted (l : list A) : StronglySorted le (sort_by lt l).
Proof. apply fold_insert_sorted. constructor. Qed.

End SortBy.

Lemma firstn_sorted (A : Type) (R : A -> A -> Prop) (n : nat) (l : list A) :
  StronglySorted R l -> StronglySorted R (firstn n l).
Proof.
  intros H. revert n. induction H as [|a l Hs IH Ha]; intros [|n]; simpl;
    try constructor; auto.
  apply Forall_forall. intros x Hx.
  rewrite Forall_forall in Ha. apply Ha.
  rewrite <- (firstn_skipn n l). apply in_or_app. now left.
Qed.

Lemma firstn_In (A : Type) (n : nat) (l : list A) (x : A) :
  In x (firstn n l) -> In x l.
Proof.
  intros H. rewrite <- (firstn_skipn n l). apply in_or_app. now left.
Qed.

Lemma firstn_NoDup (A : Type) (n : nat) (l : list A) :
  NoDup l -> NoDup (firstn n l).
Proof.
  intros H. rewrite <- (firstn_skipn n l) in H.
  now apply NoDup_app_remove_r in H.
Qed.

Lemma sorted_nth (A : Type) (R : A -> A -> Prop) (l : list A) :
  StronglySorted R l ->
  forall i j a b, (i < j)%nat ->
    nth_error l i = Some a -> nth_error l j = Some b -> R a b.
Proof.
  induction 1 as [|x l Hs IH Hx]; intros i j a b Hij Hi Hj.
  - destruct i; discriminate.
  - destruct j as [|j]; [lia|]. simpl in Hj.
    destruct i as [|i]; simpl in Hi.
    + injection Hi as <-. rewrite Forall_forall in Hx.
      apply Hx. eapply nth_error_In; eauto.
    + apply (IH i j); auto. lia.
Qed.

(** ** The two sort keys *)

Lemma Qltb_false (x y : Q) : Qltb x y = false <-> (y <= x)%Q.
Proof.
  unfold Qltb. rewrite negb_false_iff. apply Qle_bool_iff.
Qed.

Lemma Qltb_true (x y : Q) : Qltb x y = true <-> (x < y)%Q.
Proof.
  unfold Qltb. rewrite negb_true_iff. split.
  - intros H. apply Qnot_le_lt. intros L.
    apply Qle_bool_iff in L. congruence.
  - intros H. destruct (Qle_bool y x) eqn:E; auto.
    apply Qle_bool_iff in E. lra.
Qed.

(** The order of the keys [(year_rank, -popularity)]. *)
Definition key_le_year (y : str) (a b : MediaMatch) : Prop :=
  (year_rank y a <= year_rank y b)%nat /\
  (year_rank y a = year_rank y b -> (popularity b <= popularity a)%Q).

Lemma key_lt_year_false (y : str) (a b : MediaMatch) :
  le (key_lt_year y) a b <-> key_le_year y a b.
Proof.
  unfold le, key_lt_year, key_le_year.
  rewrite orb_false_iff, andb_false_iff, Nat.ltb_ge, Nat.eqb_neq, Qltb_false.
  split.
  - intros [H1 [H2|H2]]; split; auto; try lia.
    intros _. lra.
  - intros [H1 H2]. split; auto.
    destruct (Nat.eq_dec (year_rank y b) (year_rank y a)) as [E|E]; auto.
    right. symmetry in E. specialize (H2 E). lra.
Qed.

Lemma key_lt_year_asym (y : str) (a b : MediaMatch) :
  key_lt_year y a b = true -> key_lt_year y b a = false.
Proof.
  intros H. apply key_lt_year_false. unfold key_lt_year in H.
  apply orb_true_iff in H as [H|H].
  - apply Nat.ltb_lt in H. split; lia.
  - apply andb_true_iff in H as [H1 H2].
    apply Nat.eqb_eq in H1. apply Qltb_true in H2.
    split; [lia|]. intros _. lra.
Qed.

Lemma key_le_year_trans (y : str) (a b c : MediaMatch) :
  le (key_lt_year y) a b -> le (key_lt_year y) b c -> le (key_lt_year y) a c.
Proof.
  rewrite !key_lt_year_false. intros [H1 H2] [H3 H4]. split; [lia|].
  intros E.
  assert (E1 : year_rank y a = year_rank y b) by lia.
  assert (E2 : year_rank y b = year_rank y c) by lia.
  specialize (H2 E1). specialize (H4 E2). lra.
Qed.

Lemma key_lt_pop_false (a b : MediaMatch) :
  le key_lt_pop a b <-> (popularity b <= popularity a)%Q.
Proof.
  unfold le, key_lt_pop. rewrite Qltb_false. split; intros; lra.
Qed.

Lemma key_lt_pop_asym (a b : MediaMatch) :
  key_lt_pop a b = true -> key_lt_pop b a = false.
Proof.
  intros H. apply key_lt_pop_false. apply Qltb_true in H. lra.
Qed.

Lemma key_le_pop_trans (a b c : MediaMatch) :
  le key_lt_pop a b -> le key_lt_pop b c -> le key_lt_pop a c.
Proof. rewrite !key_lt_pop_false. intros. lra. Qed.

Lemma year_rank_0 (y : str) (m : MediaMatch) :
  year_rank y m = 0%nat <-> year m = y.
Proof.
  unfold year_rank. destruct (str_eqb (year m) y) eqn:E.
  - apply TextFacts.str_eqb_eq in E. tauto.
  - apply TextFacts.str_eqb_neq in E. split; [discriminate|contradiction].
Qed.

Lemma year_rank_cases (y : str) (m : MediaMatch) :
  year_rank y m = 0%nat \/ year_rank y m = 1%nat.
Proof. unfold year_rank. destruct (str_eqb (year m) y); auto. Qed.

Lemma rank_perm (yr : option str) (rs : list MediaMatch) :
  Permutation (rank yr rs) rs.
Proof.
  unfold rank. destruct yr as [[|c y]|]; apply sort_by_perm.
Qed.

End SortFacts.

(* ================================================================== *)
(** * Properties: ranking and de-duplication *)
(* ================================================================== *)

Module SearchFacts.

Import Tmdb SortFacts.

(** Candidates of the year [y] come first, and candidates on the same
    side of that divide are in descending popularity. *)
Definition ranked_by_year (y : str) (r : list MediaMatch) : Prop :=
  forall i j a b, (i < j)%nat ->
    nth_error r i = Some a -> nth_error r j = Some b ->
    (year b = y -> year a = y) /\
    ((year a = y <-> year b = y) -> (popularity b <= popularity a)%Q).

Definition ranked_by_popularity (r : list MediaMatch) : Prop :=
  forall i j a b, (i < j)%nat ->
    nth_error r i = Some a -> nth_error r j = Some b ->
    (popularity b <= popularity a)%Q.

Lemma rank_ranked_by_year (y : str) (n : nat) (rs : list MediaMatch) :
  ranked_by_year y (firstn n (sort_by (key_lt_year y) rs)).
Proof.
  intros i j a b Hij Ha Hb.
  assert (H : le (key_lt_year y) a b).
  { eapply sorted_nth; eauto. apply firstn_sorted.
    apply sort_by_sorted.
    - apply key_lt_year_asym.
    - apply key_le_year_trans. }
  apply key_lt_year_false in H. destruct H as [H1 H2]. split.
  - intros Eb. apply year_rank_0 in Eb. apply year_rank_0. lia.
  - intros E. apply H2.
    destruct (year_rank_cases y a) as [Ea|Ea],
             (year_rank_cases y b) as [Eb|Eb]; try congruence.
    + apply year_rank_0 in Ea. apply E in Ea. apply year_rank_0 in Ea.
      congruence.
    + apply year_rank_0 in Eb. apply E in Eb. apply year_rank_0 in Eb.
      congruence.
Qed.

Lemma rank_ranked_by_popularity (n : nat) (rs : list MediaMatch) :
  ranked_by_popularity (firstn n (sort_by key_lt_pop rs)).
Proof.
  intros i j a b Hij Ha Hb.
  apply key_lt_pop_false.
  eapply sorted_nth; eauto. apply firstn_sorted.
  apply sort_by_sorted.
  - apply key_lt_pop_asym.
  - apply key_le_pop_trans.
Qed.

Lemma search_from_ranked (variants : list (str * option str)) (w : world)
    (yr : option str) (mtype : MediaType) :
  (List.length (fst (search_from variants w yr mtype)) <= 10)%nat /\
  match yr with
  | Some (c :: y) =>
      ranked_by_year (c :: y) (fst (search_from variants w yr mtype))
  | _ => ranked_by_popularity (fst (search_from variants w yr mtype))
  end.
Proof.
  unfold search_from. cbv zeta. cbn [fst]. split.
  - rewrite length_firstn. apply Nat.le_min_l.
  - unfold rank. destruct yr as [[|c y]|].
    + apply rank_ranked_by_popularity.
    + apply rank_ranked_by_year.
    + apply rank_ranked_by_popularity.
Qed.

(** C6.  The list [_search_tmdb] returns has at most 10 candidates.  If
    a year was supplied, no candidate of another year stands before a
    candidate of that year, and two candidates that both have that year,
    or both another, stand in descending order of popularity; if no year
    was supplied, all candidates stand in descending order of
    popularity. *)
Theorem C6_ranking (w : world) (t : str) (yr : option str)
    (mtype : MediaType) :
  (List.length (fst (_search_tmdb w t yr mtype)) <= 10)%nat /\
  match yr with
  | Some (c :: y) => ranked_by_year (c :: y) (fst (_search_tmdb w t yr mtype))
  | _ => ranked_by_popularity (fst (_search_tmdb w t yr mtype))
  end.
Proof. apply search_from_ranked. Qed.

(** The ranking property on two candidates of equal popularity: the one
    of the supplied year comes first, wherever it stood. *)
Example year_match_first :
  let other := {| tmdb_id := 1; imdb_id := None; title := lit "Heat";
                  original_title := lit "Heat"; year := lit "1986";
                  media_type := lit "movie"; popularity := 7 # 2 |} in
  let same := {| tmdb_id := 2; imdb_id := None; title := lit "Heat";
                 original_title := lit "Heat"; year := lit "1995";
                 media_type := lit "movie"; popularity := 7 # 2 |} in
  rank (Some (lit "1995")) [other; same] = [same; other] /\
  rank None [other; same] = [other; same].
Proof. split; reflexivity. Qed.

(** ** De-duplication *)

(** The fields [_search_tmdb] copies from an item into a candidate. *)
Definition built_from (mtype : MediaType) (item : json) (m : MediaMatch)
    : Prop :=
  get_id item = Some (tmdb_id m) /\
  title m = item_title mtype item /\
  original_title m = item_orig_title mtype item /\
  year m = item_year mtype item /\
  popularity m = get_popularity item.

(** [m] was built from the first of [items] that carries its
    identifier. *)
Definition first_occurrence (mtype : MediaType) (items : list json)
    (m : MediaMatch) : Prop :=
  exists pre item post,
    items = pre ++ item :: post /\
    (forall x, In x pre -> get_id x <> Some (tmdb_id m)) /\
    built_from mtype item m.

(** What the loops of [_search_tmdb] maintain. *)
Record deduplicated (mtype : MediaType) (st : search_state) : Prop := {
  seen_are_results :
    forall id, In id (seen_ids st) <-> In id (map tmdb_id (results st));
  results_distinct : NoDup (map tmdb_id (results st));
  visited_are_seen :
    forall x id, In x (seen_items st) -> get_id x = Some id ->
      id <> 0%Z -> In id (seen_ids st);
  results_first :
    forall m, In m (results st) -> first_occurrence mtype (seen_items st) m
}.

Lemma first_occurrence_more (mtype : MediaType) (items : list json)
    (x : json) (m : MediaMatch) :
  first_occurrence mtype items m -> first_occurrence mtype (items ++ [x]) m.
Proof.
  intros (pre & it & post & -> & H1 & H2).
  exists pre, it, (post ++ [x]). rewrite <- app_assoc. simpl. auto.
Qed.

Lemma existsb_Zeqb (id : Z) (l : list Z) :
  existsb (Z.eqb id) l = true <-> In id l.
Proof.
  rewrite existsb_exists. split.
  - intros (x & Hx & E). apply Z.eqb_eq in E. now subst.
  - intros H. exists id. split; auto. apply Z.eqb_refl.
Qed.

Lemma item_step_deduplicated (mtype : MediaType) (st : search_state)
    (item : json) :
  deduplicated mtype st -> deduplicated mtype (item_step mtype st item).
Proof.
  intros [H1 H2 H3 H4]. unfold item_step.
  destruct (get_id item) as [id|] eqn:Eid.
  - destruct ((id =? 0)%Z || existsb (Z.eqb id) (seen_ids st)) eqn:Eskip.
    + constructor; simpl; auto.
      * intros x i Hx Hi Hn. apply in_app_or in Hx as [Hx|[<-|[]]]; eauto.
        rewrite Eid in Hi. injection Hi as <-.
        apply orb_true_iff in Eskip as [E|E].
        -- apply Z.eqb_eq in E. contradiction.
        -- now apply existsb_Zeqb.
      * intros m Hm. apply first_occurrence_more. auto.
    + apply orb_false_iff in Eskip as [E0 Eseen].
      assert (Hnew : ~ In id (seen_ids st)).
      { intros Hin. apply existsb_Zeqb in Hin. congruence. }
      destruct (if (List.length (results st) <? 3)%nat
                then _get_imdb_id (ss_world st) id (media_str mtype)
                else (None, ss_world st)) as [imdb w'].
      constructor; simpl.
      * intros i. rewrite map_app, in_app_iff. simpl.
        rewrite <- H1. tauto.
      * rewrite map_app. simpl.
        apply NoDup_app; auto.
        -- repeat constructor. simpl. tauto.
        -- intros i Hi [<-|[]]. apply Hnew. now apply H1.
      * intros x i Hx Hi Hn. apply in_app_or in Hx as [Hx|[<-|[]]].
        -- right. eauto.
        -- rewrite Eid in Hi. injection Hi as <-. now left.
      * intros m Hm. apply in_app_or in Hm as [Hm|[<-|[]]].
        -- apply first_occurrence_more. auto.
        -- exists (seen_items st), item, []. split; [reflexivity|].
           split; [|repeat split; auto].
           simpl. intros x Hx Ex.
           apply Hnew. apply (H3 x id Hx Ex).
           intros ->. discriminate.
  - constructor; simpl; auto.
    + intros x i Hx Hi Hn. apply in_app_or in Hx as [Hx|[<-|[]]]; eauto.
      congruence.
    + intros m Hm. apply first_occurrence_more. auto.
Qed.

(** The inner loop visits the items of a payload in order. *)
Lemma items_visited (mtype : MediaType) (items : list json)
    (st : search_state) :
  seen_items (fold_left (item_step mtype) items st) = seen_items st ++ items.
Proof.
  revert st. induction items as [|x items IH]; intros st; simpl.
  - now rewrite app_nil_r.
  - rewrite IH. replace (seen_items (item_step mtype st x))
      with (seen_items st ++ [x]).
    + now rewrite <- app_assoc.
    + unfold item_step. destruct (get_id x) as [id|]; [|reflexivity].
      destruct ((id =? 0)%Z || existsb (Z.eqb id) (seen_ids st));
        [reflexivity|].
      destruct (if (List.length (results st) <? 3)%nat
                then _get_imdb_id (ss_world st) id (media_str mtype)
                else (None, ss_world st)); reflexivity.
Qed.

Lemma items_deduplicated (mtype : MediaType) (items : list json)
    (st : search_state) :
  deduplicated mtype st ->
  deduplicated mtype (fold_left (item_step mtype) items st).
Proof.
  revert st. induction items as [|x items IH]; intros st H; simpl; auto.
  apply IH. now apply item_step_deduplicated.
Qed.

Lemma variants_loop_cons (mtype : MediaType) (q : str) (y : option str)
    (rest : list (str * option str)) (st : search_state) :
  variants_loop mtype ((q, y) :: rest) st =
    if (8 <=? List.length (results st))%nat then st
    else
      let after w :=
        {| ss_world := w; results := results st;
           seen_ids := seen_ids st; seen_items := seen_items st |} in
      match _tmdb_request (ss_world st)
              (lit (if is_series mtype then "/search/tv" else "/search/movie"))
              (search_params mtype q y) with
      | (Some d, w) =>
          if truthy d && has_key "results" d
          then variants_loop mtype rest
                 (fold_left (item_step mtype) (get_list "results" d) (after w))
          else variants_loop mtype rest (after w)
      | (None, w) => variants_loop mtype rest (after w)
      end.
Proof.
  cbn [variants_loop].
  destruct (8 <=? List.length (results st))%nat; [reflexivity|].
  destruct (_tmdb_request _ _ _) as [[d|] w]; reflexivity.
Qed.

Lemma variants_loop_deduplicated (mtype : MediaType)
    (variants : list (str * option str)) (st : search_state) :
  deduplicated mtype st ->
  deduplicated mtype (variants_loop mtype variants st).
Proof.
  revert st. induction variants as [|[q y] rest IH]; intros st H.
  - exact H.
  - rewrite variants_loop_cons.
    destruct (8 <=? List.length (results st))%nat; auto.
    cbv zeta.
    destruct (_tmdb_request (ss_world st) _ _) as [data w'].
    assert (H' : deduplicated mtype
                   {| ss_world := w'; results := results st;
                      seen_ids := seen_ids st; seen_items := seen_items st |}).
    { destruct H. constructor; auto. }
    destruct data as [d|]; auto.
    destruct (truthy d && has_key "results" d); auto.
    apply IH. now apply items_deduplicated.
Qed.

Lemma start_deduplicated (mtype : MediaType) (w : world) :
  deduplicated mtype (start_search w).
Proof.
  constructor; simpl; try tauto. constructor.
Qed.

(** C7 (as the code has it).  In the list [_search_tmdb] returns no
    catalogue identifier occurs twice, and every candidate in it carries
    the title, original title, year and popularity of the first item with
    its identifier among all items received, in the order the variant
    queries returned them.  Before the list is ranked and cut to 10,
    every non-zero identifier received has exactly one candidate; the cut
    can drop it, and drops none when at most 10 candidates were
    collected. *)
Theorem C7_first_occurrence_wins (w : world) (t : str) (yr : option str)
    (mtype : MediaType) :
  let st := variants_loop mtype (_generate_search_variants t yr)
              (start_search w) in
  let final := fst (_search_tmdb w t yr mtype) in
  NoDup (map tmdb_id final) /\
  Forall (first_occurrence mtype (seen_items st)) final /\
  NoDup (map tmdb_id (results st)) /\
  Forall (fun x => forall id, get_id x = Some id -> id <> 0%Z ->
                     In id (map tmdb_id (results st))) (seen_items st) /\
  incl final (results st) /\
  ((List.length (results st) <= 10)%nat -> Permutation final (results st)).
Proof.
  intros st final.
  pose proof (@variants_loop_deduplicated mtype
                (_generate_search_variants t yr) _
                (start_deduplicated mtype w)) as [H1 H2 H3 H4].
  fold st in H1, H2, H3, H4.
  assert (Hfinal : final = firstn 10 (rank yr (results st))) by reflexivity.
  assert (Hincl : incl final (results st)).
  { intros m Hm. rewrite Hfinal in Hm. apply firstn_In in Hm.
    eapply Permutation_in; [apply rank_perm|exact Hm]. }
  split; [|split; [|split; [|split; [|split]]]].
  - rewrite Hfinal, <- firstn_map. apply firstn_NoDup.
    eapply Permutation_NoDup; [|exact H2].
    apply Permutation_map. symmetry. apply rank_perm.
  - apply Forall_forall. intros m Hm. apply H4. now apply Hincl.
  - exact H2.
  - apply Forall_forall. intros x Hx id Hid Hn. apply H1. eauto.
  - exact Hincl.
  - intros Hlen. rewrite Hfinal, firstn_all2; [apply rank_perm|].
    now rewrite (Permutation_length (rank_perm yr (results st))).
Qed.

(** A catalogue for the counterexample: the search with a year returns
    the identifiers 1 to 7, the search without a year returns 7 again
    (with another popularity) and 8 to 11. *)
Definition movie (id pop : Z) : json :=
  JObj [ (lit "id", JInt id); (lit "title", JStr (lit "Heat"));
         (lit "release_date", JStr (lit "1995-12-15"));
         (lit "popularity", JInt pop) ].

Definition with_year : list json :=
  [ movie 1 60; movie 2 59; movie 3 58; movie 4 57; movie 5 56; movie 6 55;
    movie 7 1 ].

Definition without_year : list json :=
  [ movie 7 99; movie 8 20; movie 9 19; movie 10 18; movie 11 17 ].

Definition heat_catalogue (rq : request) : response :=
  if str_eqb (fst rq) (lit "/search/movie")
  then if (List.length (snd rq) =? 4)%nat
       then Http200 (JObj [ (lit "results", JArr with_year) ])
       else Http200 (JObj [ (lit "results", JArr without_year) ])
  else Failure.

Definition heat_world : world :=
  {| cache := []; net := repeat heat_catalogue 8; sent := []; slept := 0 |}.

(** C7 fails as stated: identifier 7 is in the results of both variant
    queries and has no entry in the final list, since its candidate,
    built from the first occurrence, ranks eleventh. *)
Lemma C7_duplicate_cut_off :
  let st := variants_loop MOVIE
              (_generate_search_variants (lit "Heat") (Some (lit "1995")))
              (start_search heat_world) in
  let final := fst (_search_tmdb heat_world (lit "Heat")
                      (Some (lit "1995")) MOVIE) in
  seen_items st = with_year ++ without_year /\
  existsb (fun x => match get_id x with Some 7%Z => true | _ => false end)
    with_year = true /\
  existsb (fun x => match get_id x with Some 7%Z => true | _ => false end)
    without_year = true /\
  map tmdb_id final = [1; 2; 3; 4; 5; 6; 8; 9; 10; 11]%Z /\
  filter (fun m => (tmdb_id m =? 7)%Z) final = [].
Proof. vm_compute. repeat split. Qed.

End SearchFacts.

(* ================================================================== *)
(** * Properties: scanning *)
(* ================================================================== *)

Module ScanFacts.

Import Tmdb Scan SortFacts.

(** The outcome of an already canonical folder. *)
Definition done_already (folder : path) : ScanResult :=
  {| sr_path := folder; folder_name := name_of folder;
     detected_type := MOVIE;
     extracted_title := None; extracted_year := None;
     videos := []; matches := [];
     selected_match := None; status := DONE;
     new_name := None; error := None; collection_items := None |}.

(** C8.  Scanning a folder whose name matches the canonical pattern
    returns the done-already outcome, with no videos, no title, no year
    and no candidates, and leaves the client as it was: nothing is sent,
    nothing is read from the cache or the network; the outcome does not
    depend on what title extraction or the directory walk would give. *)
Theorem C8_canonical_short_circuit
    (_extract_title_year : str -> option str * option str)
    (walk : path -> list VideoFile) (w : world) (folder : path) :
  Re.match_anchored canonical_name (name_of folder) = true ->
  scan_folder _extract_title_year walk w folder = (done_already folder, w).
Proof.
  intros H. unfold scan_folder. rewrite H. reflexivity.
Qed.

Definition alien : path :=
  [ lit "library"; lit "Alien (1979) [imdbid-tt0078748]" ].

Definition a_video (p : path) (size : Z) (kind : MediaType)
    (ep : option EpisodeInfo) (t y : option str) (dir : option path)
    : VideoFile :=
  {| vf_path := p; size_bytes := size; vf_media_type := kind;
     episode_info := ep; vf_extracted_title := t; vf_extracted_year := y;
     parent_folder := dir |}.

Definition GiB : Z := 1024 ^ 3.

Lemma C8_canonical_short_circuit_witness :
  let quiet := {| cache := []; net := []; sent := []; slept := 0 |} in
  scan_folder (fun _ => (Some (lit "Alien"), Some (lit "1979")))
    (fun p => [ a_video (p ++ [lit "alien.mkv"]) (2 * GiB) MOVIE None
                  (Some (lit "Alien")) (Some (lit "1979")) None ])
    quiet alien
  = (done_already alien, quiet).
Proof.
  apply C8_canonical_short_circuit. vm_compute. reflexivity.
Defined.

(** ** Classification from the candidates *)

(** The status the candidates of a folder give, and the selection. *)
Lemma scan_folder_classification
    (_extract_title_year : str -> option str * option str)
    (walk : path -> list VideoFile) (w : world) (folder : path) :
  let r := fst (scan_folder _extract_title_year walk w folder) in
  Re.match_anchored canonical_name (name_of folder) = false ->
  videos r <> [] -> detected_type r <> COLLECTION ->
  truthy_str (extracted_title r) = true ->
  match matches r with
  | [] => status r = NONE /\ selected_match r = None
  | _ =>
      match sole_year_match (matches r) (extracted_year r) with
      | Some m => status r = AUTO /\ selected_match r = Some m
      | None => status r = UNSURE /\ selected_match r = None
      end
  end.
Proof.
  cbv zeta. unfold scan_folder. intros Hc. rewrite Hc.
  destruct (_detect_type walk folder) as [dtype vs].
  destruct (_extract_title_year (name_of folder)) as [t y].
  destruct vs as [|v vs]; [simpl; congruence|].
  destruct (MediaType_eqb dtype COLLECTION) eqn:Ed.
  - destruct dtype; try discriminate.
    destruct (_prepare_collection_items w (v :: vs)). simpl. congruence.
  - destruct t as [[|c s]|]; try (simpl; discriminate).
    destruct (_search_tmdb w (c :: s) y dtype) as [ms w'].
    destruct ms as [|m ms]; [simpl; auto|].
    destruct (sole_year_match (m :: ms) y) eqn:Es; cbn -[sole_year_match];
      rewrite Es; auto.
Qed.

(** C4, for a collection entry.  An entry for which the search returned
    no candidate gets the status uncertain, not none, and no selection;
    an entry with candidates is automatic exactly when its single
    candidate has the extracted year, and uncertain otherwise. *)
Theorem C4_collection_entry_status (w : world) (v : VideoFile) :
  let item := fst (_prepare_collection_item w v) in
  (ci_matches item = [] ->
   ci_status item = UNSURE /\ ci_selected_match item = None) /\
  match sole_year_match (ci_matches item) (ci_extracted_year item) with
  | Some m => ci_status item = AUTO /\ ci_selected_match item = Some m
  | None => ci_status item = UNSURE /\ ci_selected_match item = None
  end.
Proof.
  cbv zeta. unfold _prepare_collection_item.
  destruct (match vf_extracted_title v with
            | Some (c :: s) => _search_tmdb w (c :: s) (vf_extracted_year v) MOVIE
            | _ => ([], w)
            end) as [ms w'].
  simpl. split.
  - intros ->. auto.
  - destruct (sole_year_match ms (vf_extracted_year v)); auto.
Qed.

(** The failing input of C4: a film of a collection whose title the
    catalogue does not know. *)
Definition unknown_film : VideoFile :=
  a_video [ lit "library"; lit "Trilogy"; lit "Obscure Film 1977.mkv" ]
    (2 * GiB) MOVIE None (Some (lit "Obscure Film")) (Some (lit "1977")) None.

Definition empty_catalogue : world :=
  {| cache := [];
     net := repeat (fun _ => Http200 (JObj [ (lit "results", JArr []) ])) 4;
     sent := []; slept := 0 |}.

Lemma C4_collection_entry_status_witness :
  let item := fst (_prepare_collection_item empty_catalogue unknown_film) in
  ci_matches item = [] /\ ci_status item = UNSURE /\
  ci_selected_match item = None.
Proof.
  split; [vm_compute; reflexivity|].
  apply (proj1 (C4_collection_entry_status empty_catalogue unknown_film)).
  vm_compute. reflexivity.
Defined.

(** ** Folder classification *)

Definition is_movie (v : VideoFile) : bool :=
  MediaType_eqb (vf_media_type v) MOVIE.

Definition is_episode (v : VideoFile) : bool :=
  MediaType_eqb (vf_media_type v) SERIES.

(** The first movie of the list, which [movies[0]] reads. *)
Definition first_movie (vs : list VideoFile) : option VideoFile :=
  hd_error (filter is_movie vs).

Definition not_smaller (a b : VideoFile) : Prop :=
  (size_bytes b <= size_bytes a)%Z.

Lemma _find_videos_sorted (walk : path -> list VideoFile) (dir : path) :
  StronglySorted not_smaller (_find_videos walk dir).
Proof.
  unfold _find_videos.
  eapply StronglySorted_ind with
    (R := le (fun a b => (size_bytes b <? size_bytes a)%Z)).
  - constructor.
  - intros a l Hs IH Ha. constructor; auto.
    eapply Forall_impl; [|exact Ha].
    intros b Hb. unfold le in Hb. apply Z.ltb_ge in Hb. exact Hb.
  - apply sort_by_sorted.
    + intros a b H. apply Z.ltb_lt in H. apply Z.ltb_ge. lia.
    + unfold le. intros a b c H1 H2.
      apply Z.ltb_ge in H1, H2. apply Z.ltb_ge. lia.
Qed.

Lemma sorted_head_largest (vs : list VideoFile) (best : VideoFile)
    (rest : list VideoFile) :
  StronglySorted not_smaller vs -> vs = best :: rest ->
  forall v, In v vs -> not_smaller best v.
Proof.
  intros H -> v [<-|Hv].
  - unfold not_smaller. lia.
  - apply StronglySorted_inv in H as [_ H].
    rewrite Forall_forall in H. auto.
Qed.

Lemma first_movie_largest (vs : list VideoFile) :
  StronglySorted not_smaller vs ->
  match first_movie vs with
  | Some m =>
      In m vs /\ vf_media_type m = MOVIE /\
      forall v, In v vs -> vf_media_type v = MOVIE -> not_smaller m v
  | None => forall v, In v vs -> vf_media_type v <> MOVIE
  end.
Proof.
  unfold first_movie. induction 1 as [|a l Hs IH Ha]; simpl.
  - tauto.
  - unfold is_movie at 1. destruct (vf_media_type a) eqn:Ea; simpl.
    + split; [now left|]. split; [exact Ea|].
      intros v [<-|Hv] _.
      * unfold not_smaller. lia.
      * rewrite Forall_forall in Ha. auto.
    + destruct (hd_error (filter is_movie l)) as [m|].
      * destruct IH as (H1 & H2 & H3). repeat split; auto.
        intros v [<-|Hv] Hm; [congruence|auto].
      * intros v [<-|Hv]; [congruence|auto].
    + destruct (hd_error (filter is_movie l)) as [m|].
      * destruct IH as (H1 & H2 & H3). repeat split; auto.
        intros v [<-|Hv] Hm; [congruence|auto].
      * intros v [<-|Hv]; [congruence|auto].
    + destruct (hd_error (filter is_movie l)) as [m|].
      * destruct IH as (H1 & H2 & H3). repeat split; auto.
        intros v [<-|Hv] Hm; [congruence|auto].
      * intros v [<-|Hv]; [congruence|auto].
Qed.

(** No items: unknown. *)
Lemma _detect_type_no_items (walk : path -> list VideoFile) (dir : path) :
  _find_videos walk dir = [] -> fst (_detect_type walk dir) = UNKNOWN.
Proof. unfold _detect_type. intros ->. reflexivity. Qed.

(** C5 (as the code has it).  For a folder with items that is not a
    collection and has fewer than two episode items: the items are in
    descending order of size, so the first is the largest item and the
    first movie is the largest movie; the folder is classified movie by
    the size rule exactly when the largest movie item, whether or not a
    larger episode exists, is over 1 GiB; otherwise it is series if the
    folder name has a series cue, and otherwise it takes the
    classification of the largest item. *)
Theorem C5_detect_type_amended (walk : path -> list VideoFile) (dir : path)
    (best : VideoFile) (rest : list VideoFile) :
  _find_videos walk dir = best :: rest ->
  _is_collection (name_of dir) (best :: rest) = false ->
  (List.length (filter is_episode (best :: rest)) < 2)%nat ->
  (forall v, In v (best :: rest) -> not_smaller best v) /\
  match first_movie (best :: rest) with
  | Some m =>
      In m (best :: rest) /\ vf_media_type m = MOVIE /\
      forall v, In v (best :: rest) -> vf_media_type v = MOVIE ->
        not_smaller m v
  | None => forall v, In v (best :: rest) -> vf_media_type v <> MOVIE
  end /\
  fst (_detect_type walk dir) =
    if match first_movie (best :: rest) with
       | Some m => over_1GiB (size_bytes m)
       | None => false
       end
    then MOVIE
    else if Re.search series_cue (name_of dir) then SERIES
    else vf_media_type best.
Proof.
  intros Hv Hc He.
  pose proof (_find_videos_sorted walk dir) as Hs. rewrite Hv in Hs.
  split; [|split].
  - now apply sorted_head_largest with (rest := rest).
  - now apply first_movie_largest.
  - unfold _detect_type. rewrite Hv, Hc.
    fold is_episode. fold is_movie.
    apply Nat.ltb_lt in He. rewrite Nat.ltb_antisym in He.
    apply negb_true_iff in He. rewrite He.
    unfold first_movie.
    destruct (filter is_movie (best :: rest)) as [|m ms]; simpl.
    + destruct (Re.search series_cue (name_of dir)); reflexivity.
    + destruct (over_1GiB (size_bytes m)); [reflexivity|].
      destruct (Re.search series_cue (name_of dir)); reflexivity.
Qed.

(** A folder with one subfolder that holds an episode of 3 GiB and a
    film of 2 GiB; both take their title from the subfolder. *)
Definition firefly : path := [ lit "library"; lit "Firefly" ].

Definition firefly_walk (p : path) : list VideoFile :=
  let sub := p ++ [ lit "Firefly 2002" ] in
  [ a_video (sub ++ [ lit "Serenity.mkv" ]) (2 * GiB) MOVIE None
      (Some (lit "Firefly")) (Some (lit "2002")) (Some sub);
    a_video (sub ++ [ lit "Firefly.S01E01.mkv" ]) (3 * GiB) SERIES
      (Some {| season := 1; episode := 1 |})
      (Some (lit "Firefly")) (Some (lit "2002")) (Some sub) ].

Lemma C5_detect_type_amended_witness :
  fst (_detect_type firefly_walk firefly) = MOVIE.
Proof.
  destruct (@C5_detect_type_amended firefly_walk firefly
              (a_video (firefly ++ [ lit "Firefly 2002" ]
                          ++ [ lit "Firefly.S01E01.mkv" ]) (3 * GiB) SERIES
                 (Some {| season := 1; episode := 1 |})
                 (Some (lit "Firefly")) (Some (lit "2002"))
                 (Some (firefly ++ [ lit "Firefly 2002" ])))
              [ a_video (firefly ++ [ lit "Firefly 2002" ]
                           ++ [ lit "Serenity.mkv" ]) (2 * GiB) MOVIE None
                  (Some (lit "Firefly")) (Some (lit "2002"))
                  (Some (firefly ++ [ lit "Firefly 2002" ])) ])
    as (_ & _ & H).
  - vm_compute. reflexivity.
  - vm_compute. reflexivity.
  - vm_compute. lia.
  - rewrite H. vm_compute. reflexivity.
Defined.

(** C5 fails as stated: here the largest item is an episode, so no movie
    is the best item, and the folder name has no series cue; the folder
    is classified movie all the same, because of the smaller film. *)
Lemma C5_largest_is_an_episode :
  option_map vf_media_type (hd_error (_find_videos firefly_walk firefly))
    = Some SERIES /\
  _is_collection (name_of firefly) (_find_videos firefly_walk firefly)
    = false /\
  List.length (filter is_episode (_find_videos firefly_walk firefly)) = 1%nat /\
  Re.search series_cue (name_of firefly) = false /\
  fst (_detect_type firefly_walk firefly) = MOVIE.
Proof. vm_compute. repeat split. Qed.

End ScanFacts.

(* ================================================================== *)
(** * Properties: the outcome invariant *)
(* ================================================================== *)

Module OutcomeFacts.

Import Tmdb Scan Review Execute.

Section Outcomes.

Variable _extract_title_year : str -> option str * option str.
Variable walk : path -> list VideoFile.

(** The outcomes the program can hold: those [scan_folder] returns, and
    those the review loop, [handle_collection], the ['x'] command and
    [execute_renames] make of them. *)
Inductive reachable : ScanResult -> Prop :=
| by_scan (w : world) (folder : path) :
    reachable (fst (scan_folder _extract_title_year walk w folder))
| by_review (w : world) (r : ScanResult) (cmd : collection_cmd)
    (answers : list answer) :
    reachable r -> reachable (fst (fst (review_one w r cmd answers)))
| by_review_new (w : world) (r r' : ScanResult) (cmd : collection_cmd)
    (answers : list answer) :
    reachable r -> In r' (snd (fst (review_one w r cmd answers))) ->
    reachable r'
| by_mark (dry_run : bool) (r : ScanResult) :
    reachable r -> reachable (mark_renamed dry_run r)
| by_execute (dry_run : bool) (w : world) (m : Rename.machine)
    (r : ScanResult) (now : Z) (undo_faults : list bool) :
    reachable r -> ready r = true ->
    reachable (fst (fst (fst (execute_one dry_run w m r now undo_faults)))).

(** What holds of every outcome. *)
Record outcome_invariant (r : ScanResult) : Prop := {
  auto_selected : status r = AUTO -> selected_match r <> None;
  manual_selected :
    status r = MANUAL -> detected_type r <> COLLECTION ->
    selected_match r <> None;
  selected_status :
    selected_match r <> None ->
    In (status r) [AUTO; MANUAL; SKIP; RENAMED];
  collection_unselected :
    detected_type r = COLLECTION -> selected_match r = None
}.

Ltac inv_auto :=
  constructor; simpl; intros;
  try congruence; try discriminate; auto;
  try (simpl; tauto).

Lemma scan_folder_invariant (w : world) (folder : path) :
  outcome_invariant (fst (scan_folder _extract_title_year walk w folder)).
Proof.
  unfold scan_folder.
  destruct (Re.match_anchored canonical_name (name_of folder)).
  - inv_auto.
  - destruct (_detect_type walk folder) as [dtype vs].
    destruct (_extract_title_year (name_of folder)) as [t y].
    destruct vs as [|v vs]; [inv_auto|].
    destruct (MediaType_eqb dtype COLLECTION) eqn:Ed.
    + destruct (_prepare_collection_items w (v :: vs)).
      destruct dtype; try discriminate. inv_auto.
    + assert (dtype <> COLLECTION) by (intros ->; discriminate).
      destruct t as [[|c s]|]; try solve [inv_auto].
      destruct (_search_tmdb w (c :: s) y dtype) as [ms w'].
      destruct ms as [|m ms]; [inv_auto|].
      destruct (sole_year_match (m :: ms) y); inv_auto.
Qed.

Lemma set_status_skip_invariant (r : ScanResult) :
  outcome_invariant r -> outcome_invariant (set_status r SKIP).
Proof. intros [H1 H2 H3 H4]. inv_auto. Qed.

Lemma select_invariant (r : ScanResult) (m : MediaMatch) (st : MatchStatus) :
  detected_type r <> COLLECTION -> In st [AUTO; MANUAL; SKIP; RENAMED] ->
  outcome_invariant (select r m st).
Proof. intros Hc Hst. inv_auto. Qed.

Lemma review_result_invariant (w : world) (r : ScanResult) (a : answer) :
  detected_type r <> COLLECTION -> outcome_invariant r ->
  outcome_invariant (fst (review_result w r a)).
Proof.
  intros Hc Hr. unfold review_result.
  destruct (matches r) as [|m0 ms].
  - destruct a as [|manual|num|]; simpl;
      try now apply set_status_skip_invariant.
    destruct (_manual_lookup w manual) as [[[m|]|e] w']; simpl; auto.
    + apply select_invariant; simpl; auto.
    + now apply set_status_skip_invariant.
  - destruct a as [|manual|num|]; simpl; auto.
    + now apply set_status_skip_invariant.
    + destruct (_manual_lookup w manual) as [[[m|]|e] w']; simpl; auto.
      apply select_invariant; simpl; auto.
    + destruct (pick (m0 :: ms) num); simpl; auto.
      apply select_invariant; simpl; auto.
Qed.

Lemma promote_invariant (i : CollectionItem) (r : ScanResult) :
  promote i = Some r -> outcome_invariant r.
Proof.
  unfold promote.
  destruct (ci_status i), (ci_selected_match i); try discriminate;
    intros H; injection H as <-; inv_auto.
Qed.

Lemma promote_all_invariant (items : list CollectionItem) (r : ScanResult) :
  In r (promote_all items) -> outcome_invariant r.
Proof.
  induction items as [|i items IH]; simpl; [tauto|].
  destruct (promote i) as [r0|] eqn:E; auto.
  intros [<-|H]; auto. now apply promote_invariant in E.
Qed.

Lemma handle_collection_invariant (w : world) (r : ScanResult)
    (cmd : collection_cmd) (answers : list answer) :
  outcome_invariant r ->
  outcome_invariant (fst (fst (handle_collection w r cmd answers))) /\
  forall r', In r' (snd (fst (handle_collection w r cmd answers))) ->
    outcome_invariant r'.
Proof.
  intros Hr. unfold handle_collection.
  destruct (collection_items r) as [[|i items]|]; try (simpl; tauto).
  destruct cmd; try (simpl; tauto).
  - simpl. split; [now apply set_status_skip_invariant|].
    intros r' [<-|[]]. now apply set_status_skip_invariant.
  - cbv beta iota zeta.
    destruct (review_items false w (i :: items) answers) as [items' w'].
    cbn [fst snd]. split.
    + destruct Hr as [H1 H2 H3 H4]. inv_auto.
    + apply promote_all_invariant.
  - cbv beta iota zeta.
    destruct (review_items true w (i :: items) answers) as [items' w'].
    cbn [fst snd]. split.
    + destruct Hr as [H1 H2 H3 H4]. inv_auto.
    + apply promote_all_invariant.
Qed.

Lemma review_one_invariant (w : world) (r : ScanResult)
    (cmd : collection_cmd) (answers : list answer) :
  outcome_invariant r ->
  outcome_invariant (fst (fst (review_one w r cmd answers))) /\
  forall r', In r' (snd (fst (review_one w r cmd answers))) ->
    outcome_invariant r'.
Proof.
  intros Hr. unfold review_one.
  assert (G : outcome_invariant
                (fst (fst (if MediaType_eqb (detected_type r) COLLECTION
                           then handle_collection w r cmd answers
                           else match answers with
                                | a :: _ =>
                                    let '(r', w0) := review_result w r a in
                                    (r', [], w0)
                                | [] => (r, [], w)
                                end))) /\
              forall r',
                In r' (snd (fst (if MediaType_eqb (detected_type r) COLLECTION
                                 then handle_collection w r cmd answers
                                 else match answers with
                                      | a :: _ =>
                                          let '(r', w0) := review_result w r a in
                                          (r', [], w0)
                                      | [] => (r, [], w)
                                      end))) ->
                outcome_invariant r').
  { destruct (MediaType_eqb (detected_type r) COLLECTION) eqn:Ec.
    - now apply handle_collection_invariant.
    - assert (detected_type r <> COLLECTION).
      { intros E. rewrite E in Ec. discriminate. }
      destruct answers as [|a answers]; simpl; [tauto|].
      pose proof (review_result_invariant w a H Hr) as Hi.
      destruct (review_result w r a) as [r1 w1]. simpl in *. tauto. }
  destruct (status r); auto; simpl; tauto.
Qed.

Lemma mark_renamed_invariant (dry_run : bool) (r : ScanResult) :
  outcome_invariant r -> outcome_invariant (mark_renamed dry_run r).
Proof.
  intros Hr. unfold mark_renamed.
  destruct (status r) eqn:Es; auto.
  destruct (selected_match r) eqn:Em; auto.
  destruct dry_run; auto.
  destruct Hr as [H1 H2 H3 H4]. inv_auto.
Qed.

Lemma execute_one_invariant (dry_run : bool) (w : world)
    (m : Rename.machine) (r : ScanResult) (now : Z)
    (undo_faults : list bool) :
  outcome_invariant r ->
  outcome_invariant (fst (fst (fst (execute_one dry_run w m r now undo_faults)))).
Proof.
  intros Hr. unfold execute_one.
  destruct (selected_match r) as [mt|] eqn:Em; auto.
  assert (Hc : detected_type r <> COLLECTION).
  { intros E. destruct Hr as [_ _ _ H4]. rewrite H4 in Em; congruence. }
  assert (Hs : In (status r) [AUTO; MANUAL; SKIP; RENAMED]).
  { destruct Hr as [_ _ H3 _]. apply H3. congruence. }
  destruct (match imdb_id mt with
            | Some (c :: s) => (Some (c :: s), w)
            | _ => _get_imdb_id w (tmdb_id mt) (media_type mt)
            end) as [imdb w'].
  assert (Hsel : forall x, outcome_invariant (select r x (status r))).
  { intros x. now apply select_invariant. }
  destruct imdb as [[|c s]|]; simpl; auto.
  destruct (negb (Re.match_anchored imdb_id_7plus (c :: s))); simpl; auto.
  destruct (Sanitize._sanitize _) as [name|e]; simpl; auto.
  assert (Hn : outcome_invariant
                 (set_new_name (select r (with_imdb mt (Some (c :: s)))
                                  (status r)) name)).
  { destruct (Hsel (with_imdb mt (Some (c :: s)))) as [H1 H2 H3 H4].
    constructor; simpl in *; auto. }
  destruct dry_run; simpl; auto.
  destruct (Rename.transaction _ _ _ _ _ _); simpl; auto.
  constructor; simpl; intros; try discriminate; try contradiction; auto.
Qed.

Lemma reachable_invariant (r : ScanResult) :
  reachable r -> outcome_invariant r.
Proof.
  induction 1.
  - apply scan_folder_invariant.
  - now apply review_one_invariant.
  - eapply review_one_invariant; eauto.
  - now apply mark_renamed_invariant.
  - now apply execute_one_invariant.
Qed.

Lemma _detect_type_collection (folder : path) :
  fst (_detect_type walk folder) = COLLECTION ->
  snd (_detect_type walk folder) <> [].
Proof.
  unfold _detect_type.
  destruct (_find_videos walk folder) as [|best rest].
  - discriminate.
  - intros _.
    repeat match goal with
           | |- context [if ?c then _ else _] => destruct c
           end; discriminate.
Qed.

(** A fresh outcome has a selection exactly when it is automatic, and is
    manual exactly when it is a collection. *)
Lemma scan_folder_fresh (w : world) (folder : path) :
  let r := fst (scan_folder _extract_title_year walk w folder) in
  (selected_match r <> None <-> status r = AUTO) /\
  (detected_type r = COLLECTION <-> status r = MANUAL).
Proof.
  cbv zeta. unfold scan_folder.
  destruct (Re.match_anchored canonical_name (name_of folder)).
  - simpl. repeat split; intros; congruence.
  - pose proof (_detect_type_collection folder) as Hd.
    destruct (_detect_type walk folder) as [dtype vs].
    destruct (_extract_title_year (name_of folder)) as [t y].
    simpl in Hd.
    destruct vs as [|v vs].
    + simpl. repeat split; intros; try congruence.
      now apply Hd in H.
    + destruct (MediaType_eqb dtype COLLECTION) eqn:Ed.
      * destruct (_prepare_collection_items w (v :: vs)).
        destruct dtype; try discriminate.
        simpl. repeat split; intros; congruence.
      * assert (dtype <> COLLECTION) by (intros ->; discriminate).
        destruct t as [[|c s]|];
          try (simpl; repeat split; intros; congruence).
        destruct (_search_tmdb w (c :: s) y dtype) as [ms w'].
        destruct ms as [|m ms];
          [simpl; repeat split; intros; congruence|].
        destruct (sole_year_match (m :: ms) y);
          simpl; repeat split; intros; congruence.
Qed.

(** C2 (as the code has it).  An outcome fresh from [scan_folder] has a
    selected match exactly when its status is automatic, and has the
    status manual exactly when it is a collection.  Every outcome the
    program produces or updates keeps this: a collection's own selected
    match is empty; an outcome that is not a collection and is automatic
    or manual has a selected match; and an outcome with a selected match
    is automatic, manual, skipped or renamed. *)
Theorem C2_selection_and_status :
  (forall w folder,
     let r := fst (scan_folder _extract_title_year walk w folder) in
     (selected_match r <> None <-> status r = AUTO) /\
     (detected_type r = COLLECTION <-> status r = MANUAL)) /\
  (forall r, reachable r ->
     (detected_type r = COLLECTION -> selected_match r = None) /\
     (detected_type r <> COLLECTION -> In (status r) [AUTO; MANUAL] ->
      selected_match r <> None) /\
     (selected_match r <> None ->
      In (status r) [AUTO; MANUAL; SKIP; RENAMED])).
Proof.
  split.
  - apply scan_folder_fresh.
  - intros r Hr. apply reachable_invariant in Hr.
    destruct Hr as [H1 H2 H3 H4]. repeat split; auto.
    intros Hc [Hs|[Hs|[]]]; symmetry in Hs; auto.
Qed.

End Outcomes.

(** A catalogue that knows one film. *)
Definition alien_catalogue (rq : request) : response :=
  if str_eqb (fst rq) (lit "/search/movie")
  then Http200 (JObj [ (lit "results",
         JArr [ JObj [ (lit "id", JInt 348); (lit "title", JStr (lit "Alien"));
                       (lit "release_date", JStr (lit "1979-05-25"));
                       (lit "popularity", JInt 80) ] ]) ])
  else if str_eqb (fst rq) (lit "/movie/348/external_ids")
  then Http200 (JObj [ (lit "imdb_id", JStr (lit "tt0078748")) ])
  else Failure.

Definition alien_world : world :=
  {| cache := []; net := repeat alien_catalogue 4; sent := []; slept := 0 |}.

Definition alien_1979 : path := [ lit "library"; lit "Alien.1979" ].

Definition alien_extract (name : str) : option str * option str :=
  (Some (lit "Alien"), Some (lit "1979")).

Definition alien_file (p : path) : list VideoFile :=
  [ ScanFacts.a_video (p ++ [ lit "alien.mkv" ]) (2 * ScanFacts.GiB)
      MOVIE None (Some (lit "alien")) None None ].

(** An outcome scanned as automatic and then skipped in review keeps its
    selection. *)
Definition skipped_alien : ScanResult :=
  fst (fst (review_one alien_world
              (fst (scan_folder alien_extract alien_file alien_world
                      alien_1979))
              CmdAccept [Sel0])).

Lemma C2_selection_and_status_witness :
  status skipped_alien = SKIP /\
  option_map tmdb_id (selected_match skipped_alien) = Some 348%Z /\
  In (status skipped_alien) [AUTO; MANUAL; SKIP; RENAMED].
Proof.
  split; [reflexivity|]. split; [reflexivity|].
  apply (proj2 (C2_selection_and_status alien_extract alien_file)).
  - apply by_review. apply by_scan.
  - vm_compute. discriminate.
Defined.

(** A folder named as a collection, with two films, scanned while the
    catalogue does not answer. *)
Definition alien_collection : path := [ lit "library"; lit "Alien Collection" ].

Definition alien_walk (p : path) : list VideoFile :=
  [ ScanFacts.a_video (p ++ [ lit "Alien 1979.mkv" ]) (2 * ScanFacts.GiB)
      MOVIE None (Some (lit "Alien")) (Some (lit "1979")) None;
    ScanFacts.a_video (p ++ [ lit "Aliens 1986.mkv" ]) (3 * ScanFacts.GiB)
      MOVIE None (Some (lit "Aliens")) (Some (lit "1986")) None ].

Definition offline : world :=
  {| cache := []; net := []; sent := []; slept := 0 |}.

(** C2 fails as stated: the outcome of a collection folder has the
    status manual and no selected match. *)
Lemma C2_manual_without_selection :
  let r := fst (scan_folder (fun _ => (Some (lit "Alien"), None)) alien_walk
                  offline alien_collection) in
  detected_type r = COLLECTION /\ status r = MANUAL /\
  selected_match r = None.
Proof. vm_compute. repeat split. Qed.

End OutcomeFacts.

(* ================================================================== *)
(** * Properties: the filesystem *)
(* ================================================================== *)

Module FsFacts.

Import Fs TextFacts.

Lemma path_eqb_eq (a b : path) : path_eqb a b = true <-> a = b.
Proof.
  revert b. induction a as [|x a IH]; intros [|y b]; simpl; split;
    try congruence; try discriminate; auto.
  - intros H. apply andb_true_iff in H as [H1 H2].
    apply str_eqb_eq in H1. apply IH in H2. congruence.
  - intros H. injection H as -> ->. apply andb_true_iff. split.
    + apply str_eqb_refl.
    + now apply IH.
Qed.

Lemma path_eqb_refl (a : path) : path_eqb a a = true.
Proof. now apply path_eqb_eq. Qed.

Lemma path_eqb_neq (a b : path) : path_eqb a b = false <-> a <> b.
Proof.
  split.
  - intros H E. apply path_eqb_eq in E. congruence.
  - intros H. destruct (path_eqb a b) eqn:E; auto.
    apply path_eqb_eq in E. contradiction.
Qed.

(** [p] is [a] or lies below [a]. *)
Definition under (a p : path) : Prop := exists r, p = a ++ r.

Lemma is_prefix_under (a p : path) : is_prefix a p = true <-> under a p.
Proof.
  revert p. induction a as [|x a IH]; intros p; simpl.
  - split; auto. intros _. now exists p.
  - destruct p as [|y p].
    + split; [discriminate|]. intros [r E]. discriminate.
    + rewrite andb_true_iff, str_eqb_eq, IH. split.
      * intros [-> [r ->]]. now exists r.
      * intros [r E]. injection E as -> ->. split; auto. now exists r.
Qed.

Lemma not_prefix_not_under (a p : path) :
  is_prefix a p = false <-> ~ under a p.
Proof.
  rewrite <- is_prefix_under. destruct (is_prefix a p); split;
    congruence.
Qed.

Lemma skipn_exact (A : Type) (a r : list A) :
  skipn (List.length a) (a ++ r) = r.
Proof. induction a; simpl; auto. Qed.

Lemma retarget_under (src dst r : path) :
  retarget src dst (src ++ r) = dst ++ r.
Proof.
  unfold retarget.
  replace (is_prefix src (src ++ r)) with true.
  - now rewrite skipn_exact.
  - symmetry. apply is_prefix_under. now exists r.
Qed.

Lemma retarget_outside (src dst p : path) :
  ~ under src p -> retarget src dst p = p.
Proof.
  intros H. apply not_prefix_not_under in H. unfold retarget. now rewrite H.
Qed.

Lemma under_trans (a b c : path) : under a b -> under b c -> under a c.
Proof.
  intros [r ->] [s ->]. exists (r ++ s). now rewrite app_assoc.
Qed.

Lemma under_parent (q p : path) :
  under q p -> q <> p -> under q (parent p).
Proof.
  intros [r ->] Hne. unfold parent.
  destruct r as [|x r].
  - rewrite app_nil_r in Hne. contradiction.
  - exists (removelast (x :: r)). apply removelast_app. discriminate.
Qed.

Lemma parent_under (p : path) : under (parent p) p.
Proof.
  unfold parent. destruct p as [|x p].
  - now exists [].
  - exists [last (x :: p) []]. apply app_removelast_last. discriminate.
Qed.

Lemma parent_shorter (p : path) :
  p <> [] -> S (List.length (parent p)) = List.length p.
Proof.
  intros H. unfold parent.
  pose proof (app_removelast_last [] H) as E.
  apply (f_equal (@List.length str)) in E.
  rewrite length_app in E. unfold str in *. simpl in E. lia.
Qed.

Lemma not_under_parent (p : path) : p <> [] -> ~ under p (parent p).
Proof.
  intros H [r E]. apply parent_shorter in H.
  rewrite E, length_app in H. unfold str in *. lia.
Qed.

(** ** Lookup *)

Lemma lookup_Some (d : disk) (p : path) (e : entry) :
  lookup d p = Some e -> In e d /\ e_path e = p.
Proof.
  induction d as [|x d IH]; simpl; [discriminate|].
  destruct (path_eqb (e_path x) p) eqn:E.
  - intros H. injection H as <-. apply path_eqb_eq in E. auto.
  - intros H. apply IH in H. tauto.
Qed.

Lemma lookup_None (d : disk) (p : path) :
  lookup d p = None <-> ~ In p (map e_path d).
Proof.
  induction d as [|x d IH]; simpl.
  - tauto.
  - destruct (path_eqb (e_path x) p) eqn:E.
    + apply path_eqb_eq in E. split; [discriminate|tauto].
    + apply path_eqb_neq in E. tauto.
Qed.

Lemma exists_In (d : disk) (p : path) :
  exists_ d p = true <-> In p (map e_path d).
Proof.
  unfold exists_. destruct (lookup d p) eqn:E.
  - split; auto. intros _. apply lookup_Some in E as [H <-].
    now apply in_map.
  - apply lookup_None in E. split; [discriminate|contradiction].
Qed.

Lemma exists_false (d : disk) (p : path) :
  exists_ d p = false <-> ~ In p (map e_path d).
Proof.
  rewrite <- exists_In. destruct (exists_ d p); split; congruence.
Qed.

Lemma is_dir_In (d : disk) (p : path) :
  is_dir d p = true -> In p (map e_path d).
Proof.
  unfold is_dir. intros H. apply exists_In. unfold exists_.
  destruct (lookup d p); [reflexivity|discriminate].
Qed.

(** A well-formed disk holds every ancestor of each of its paths. *)
Lemma ancestors_present (d : disk) :
  well_formed d ->
  forall p q, In p (map e_path d) -> under q p -> In q (map e_path d).
Proof.
  intros [_ Hwf] p q Hp [r ->]. revert Hp.
  induction r as [|x r IH] using rev_ind; intros Hp.
  - now rewrite app_nil_r in Hp.
  - apply IH. apply in_map_iff in Hp as (e & Ee & He).
    specialize (Hwf e He). rewrite Ee in Hwf.
    rewrite app_assoc in Hwf. unfold parent in Hwf.
    rewrite removelast_last in Hwf.
    apply is_dir_In. apply Hwf.
    intros E. destruct (q ++ r); discriminate.
Qed.

(** ** Moving a subtree to a free place *)

Section Move.

Variables (d : disk) (src dst : path).

Hypothesis wf : well_formed d.
Hypothesis src_present : In src (map e_path d).
Hypothesis dst_free : ~ In dst (map e_path d).

Lemma nothing_under_dst (p : path) :
  In p (map e_path d) -> ~ under dst p.
Proof.
  intros Hp Hu. apply dst_free. now apply ancestors_present with p.
Qed.

Lemma src_not_under_dst : ~ under dst src.
Proof. now apply nothing_under_dst. Qed.

Lemma retarget_injective (p q : path) :
  ~ under dst p -> ~ under dst q ->
  retarget src dst p = retarget src dst q -> p = q.
Proof.
  intros Hp Hq.
  destruct (is_prefix src p) eqn:Ep, (is_prefix src q) eqn:Eq.
  - apply is_prefix_under in Ep as [r ->], Eq as [s ->].
    rewrite !retarget_under. intros E. apply app_inv_head in E. congruence.
  - apply is_prefix_under in Ep as [r ->].
    apply not_prefix_not_under in Eq.
    rewrite retarget_under, (retarget_outside _ Eq).
    intros E. exfalso. apply Hq. now exists r.
  - apply is_prefix_under in Eq as [s ->].
    apply not_prefix_not_under in Ep.
    rewrite retarget_under, (retarget_outside _ Ep).
    intros E. exfalso. apply Hp. now exists s.
  - apply not_prefix_not_under in Ep, Eq.
    now rewrite (retarget_outside _ Ep), (retarget_outside _ Eq).
Qed.

Lemma lookup_moved (q : path) :
  ~ under dst q ->
  lookup (map (move src dst) d) (retarget src dst q)
    = option_map (move src dst) (lookup d q).
Proof.
  intros Hq.
  assert (G : forall l, (forall e, In e l -> In (e_path e) (map e_path d)) ->
            lookup (map (move src dst) l) (retarget src dst q)
              = option_map (move src dst) (lookup l q)).
  { induction l as [|e l IH]; intros Hl; simpl; auto.
    destruct (path_eqb (e_path e) q) eqn:E.
    - apply path_eqb_eq in E. rewrite E, path_eqb_refl. reflexivity.
    - replace (path_eqb (retarget src dst (e_path e)) (retarget src dst q))
        with false.
      + apply IH. intros e' He'. apply Hl. now right.
      + symmetry. apply path_eqb_neq. intros E'.
        apply retarget_injective in E'; auto.
        * apply path_eqb_neq in E. contradiction.
        * apply nothing_under_dst. apply Hl. now left. }
  apply G. intros e He. now apply in_map.
Qed.

Lemma src_vacated : lookup (map (move src dst) d) src = None.
Proof.
  apply lookup_None. rewrite map_map. intros H.
  apply in_map_iff in H as (e & E & He). simpl in E.
  destruct (is_prefix src (e_path e)) eqn:Ep.
  - apply is_prefix_under in Ep as [r Er]. rewrite Er, retarget_under in E.
    apply src_not_under_dst. exists r. now symmetry.
  - apply not_prefix_not_under in Ep.
    rewrite (retarget_outside _ Ep) in E.
    apply Ep. exists []. now rewrite app_nil_r.
Qed.

Lemma move_back (e : entry) :
  In e d -> move dst src (move src dst e) = e.
Proof.
  intros He. destruct e as [p k dev]. unfold move. simpl. f_equal.
  destruct (is_prefix src p) eqn:Ep.
  - apply is_prefix_under in Ep as [r ->].
    now rewrite !retarget_under.
  - apply not_prefix_not_under in Ep.
    rewrite (retarget_outside _ Ep). apply retarget_outside.
    apply nothing_under_dst. apply in_map_iff. now exists {| e_path := p; e_kind := k; e_dev := dev |}.
Qed.

Lemma moved_back : map (move dst src) (map (move src dst) d) = d.
Proof.
  rewrite map_map. rewrite <- (map_id d) at 2.
  apply map_ext_in. intros e He. now apply move_back.
Qed.

Lemma is_dir_moved (q : path) :
  ~ under dst q ->
  is_dir (map (move src dst) d) (retarget src dst q) = is_dir d q.
Proof.
  intros Hq. unfold is_dir. rewrite (lookup_moved Hq).
  destruct (lookup d q) as [[p k dev]|]; reflexivity.
Qed.

Lemma In_lookup (p : path) :
  In p (map e_path d) -> exists e, lookup d p = Some e.
Proof.
  intros H. destruct (lookup d p) as [e|] eqn:E; eauto.
  apply lookup_None in E. contradiction.
Qed.

Lemma dst_not_root : dst <> [].
Proof.
  intros E. apply dst_free. apply ancestors_present with src; auto.
  exists src. now rewrite E.
Qed.

Hypothesis dst_outside : ~ under src dst.
Hypothesis dst_parent : is_dir d (parent dst) = true.

Lemma src_not_root : src <> [].
Proof. intros E. apply dst_outside. exists dst. now rewrite E. Qed.

Lemma moved_well_formed : well_formed (map (move src dst) d).
Proof.
  destruct wf as [Hnd Hcl]. split.
  - rewrite map_map.
    replace (map (fun e => e_path (move src dst e)) d)
      with (map (retarget src dst) (map e_path d))
      by (rewrite map_map; reflexivity).
    apply NoDup_map_NoDup_ForallPairs; auto.
    intros p q Hp Hq. apply retarget_injective; now apply nothing_under_dst.
  - intros e' He' Hne.
    apply in_map_iff in He' as (e & <- & He). simpl in *.
    assert (Hp : In (e_path e) (map e_path d)) by now apply in_map.
    destruct (is_prefix src (e_path e)) eqn:Ep.
    + apply is_prefix_under in Ep as [r Er]. rewrite Er, retarget_under.
      destruct r as [|x r].
      * rewrite app_nil_r.
        rewrite <- (@retarget_outside src dst (parent dst)).
        -- rewrite is_dir_moved; auto.
           apply not_under_parent, dst_not_root.
        -- intros Hu. apply dst_outside.
           eapply under_trans; [exact Hu|apply parent_under].
      * unfold parent. rewrite removelast_app by discriminate.
        rewrite <- retarget_under with (src := src).
        rewrite is_dir_moved.
        -- specialize (Hcl e He). rewrite Er in Hcl.
           unfold parent in Hcl. rewrite removelast_app in Hcl by discriminate.
           apply Hcl. destruct src; discriminate.
        -- apply nothing_under_dst. apply is_dir_In.
           specialize (Hcl e He). rewrite Er in Hcl.
           unfold parent in Hcl. rewrite removelast_app in Hcl by discriminate.
           apply Hcl. destruct src; discriminate.
    + apply not_prefix_not_under in Ep.
      rewrite (retarget_outside _ Ep) in *.
      rewrite <- (@retarget_outside src dst (parent (e_path e))).
      * rewrite is_dir_moved; auto.
        apply nothing_under_dst. apply is_dir_In. auto.
      * intros Hu. apply Ep.
        eapply under_trans; [exact Hu|apply parent_under].
Qed.

Lemma dst_taken : In dst (map e_path (map (move src dst) d)).
Proof.
  destruct (@In_lookup src src_present) as [s Hs].
  apply exists_In. unfold exists_.
  replace dst with (retarget src dst src) at 2.
  - rewrite lookup_moved, Hs; [reflexivity|apply src_not_under_dst].
  - rewrite <- (app_nil_r src) at 2. rewrite retarget_under.
    apply app_nil_r.
Qed.

Lemma rename_back :
  os_rename false (map (move src dst) d) dst src = Some d.
Proof.
  destruct (@In_lookup src src_present) as [s Hs].
  unfold os_rename.
  assert (E1 : lookup (map (move src dst) d) dst = Some (move src dst s)).
  { replace dst with (retarget src dst src) at 2.
    - rewrite lookup_moved, Hs; [reflexivity|apply src_not_under_dst].
    - rewrite <- (app_nil_r src) at 2. rewrite retarget_under.
      apply app_nil_r. }
  rewrite E1.
  replace (path_eqb dst src) with false.
  2:{ symmetry. apply path_eqb_neq. intros ->. contradiction. }
  replace (is_prefix dst src) with false.
  2:{ symmetry. apply not_prefix_not_under. apply src_not_under_dst. }
  replace (is_dir (map (move src dst) d) (parent src)) with true.
  2:{ symmetry.
      rewrite <- (@retarget_outside src dst (parent src)).
      - assert (Hd : is_dir d (parent src) = true).
        { destruct wf as [_ Hcl]. apply lookup_Some in Hs as [Hin Hp].
          rewrite <- Hp. apply Hcl; auto. rewrite Hp. apply src_not_root. }
        rewrite is_dir_moved; auto.
        apply nothing_under_dst. now apply is_dir_In.
      - apply not_under_parent, src_not_root. }
  simpl. rewrite src_vacated. now rewrite moved_back.
Qed.

End Move.

(** [os.rename] to a free place moves the subtree, keeps the disk well
    formed, and is undone by the opposite [os.rename]. *)
Lemma rename_fresh (d d' : disk) (src dst : path) :
  well_formed d -> In src (map e_path d) -> ~ In dst (map e_path d) ->
  os_rename false d src dst = Some d' ->
  well_formed d' /\ In dst (map e_path d') /\
  os_rename false d' dst src = Some d.
Proof.
  intros Hwf Hs Hd H. unfold os_rename in H.
  destruct (@In_lookup d src Hs) as [s Es]. rewrite Es in H.
  replace (path_eqb src dst) with false in H.
  2:{ symmetry. apply path_eqb_neq. intros ->. contradiction. }
  destruct (is_prefix src dst) eqn:Ep; [discriminate|].
  apply not_prefix_not_under in Ep.
  destruct (is_dir d (parent dst)) eqn:Edir; [|discriminate].
  simpl in H.
  replace (lookup d dst) with (@None entry) in H.
  2:{ symmetry. now apply lookup_None. }
  injection H as <-.
  split; [|split].
  - now apply moved_well_formed.
  - now apply dst_taken.
  - now apply rename_back.
Qed.

(** [os.rename] of a present entry onto itself changes nothing. *)
Lemma rename_same (d : disk) (p : path) :
  In p (map e_path d) -> os_rename false d p p = Some d.
Proof.
  intros H. unfold os_rename.
  destruct (@In_lookup d p H) as [s ->]. now rewrite path_eqb_refl.
Qed.

End FsFacts.

(* ================================================================== *)
(** * Properties: the rename transaction *)
(* ================================================================== *)

Module RenameFacts.

Import Fs Rename FsFacts.

(** No fault is to come. *)
Definition quiet (fl : list bool) : Prop := forallb negb fl = true.

Lemma quiet_next (fl : list bool) :
  quiet fl -> fst (next_fault fl) = false /\ quiet (snd (next_fault fl)).
Proof.
  unfold quiet. destruct fl as [|f fl]; simpl; auto.
  intros H. apply andb_true_iff in H as [H1 H2].
  apply negb_true_iff in H1. auto.
Qed.

(** The rollback visits the steps it is given, one after the other. *)
Lemma undo_visits_all (steps : list RenameOp) (d : disk) (fl : list bool) :
  map fst (snd (undo d steps fl)) = steps.
Proof.
  revert d fl. induction steps as [|op steps IH]; intros d fl; simpl; auto.
  destruct (exists_ d (new op)).
  - destruct (next_fault fl) as [f fl'].
    destruct (os_rename f d (new op) (old op)) as [d'|].
    + specialize (IH d' fl'). destruct (undo d' steps fl'). simpl in *.
      now f_equal.
    + specialize (IH d fl'). destruct (undo d steps fl'). simpl in *.
      now f_equal.
  - specialize (IH d fl). destruct (undo d steps fl). simpl in *.
    now f_equal.
Qed.

(** A step is passed over exactly when nothing is at its new path, and
    is reported exactly when the system call failed. *)
Lemma undo_head (op : RenameOp) (steps : list RenameOp) (d : disk)
    (fl : list bool) :
  match snd (undo d (op :: steps) fl) with
  | (_, Passed) :: _ => exists_ d (new op) = false
  | (_, Restored) :: _ =>
      exists_ d (new op) = true /\
      os_rename (fst (next_fault fl)) d (new op) (old op) <> None
  | (_, Reported) :: _ =>
      exists_ d (new op) = true /\
      os_rename (fst (next_fault fl)) d (new op) (old op) = None
  | [] => False
  end.
Proof.
  simpl. destruct (exists_ d (new op)) eqn:E.
  - destruct (next_fault fl) as [f fl']. simpl.
    destruct (os_rename f d (new op) (old op)) as [d'|] eqn:Er.
    + destruct (undo d' steps fl'). simpl. split; auto. discriminate.
    + destruct (undo d steps fl'). simpl. auto.
  - destruct (undo d steps fl). simpl. reflexivity.
Qed.

(** The disk [d0] is what undoing the completed steps of the log, last
    step first, leads back to when no fault occurs. *)
Definition undoable (d0 : disk) (m : machine) : Prop :=
  well_formed (fs m) /\
  forall fl, quiet fl ->
    undo (fs m) (rev (filter done (_ops m))) fl
      = (d0, map (fun op => (op, Restored)) (rev (filter done (_ops m)))).

Lemma undoable_start (m : machine) :
  well_formed (fs m) -> _ops m = [] -> undoable (fs m) m.
Proof.
  intros Hwf Hops. split; auto. intros fl _. now rewrite Hops.
Qed.

Lemma undoable_nothing_done (d0 : disk) (m : machine) :
  undoable d0 m -> filter done (_ops m) = [] -> fs m = d0.
Proof.
  intros [_ H] E. specialize (H [] eq_refl). rewrite E in H.
  simpl in H. congruence.
Qed.

Lemma filter_done_failed (ops : list RenameOp) (o n : path) :
  filter done (ops ++ [ {| old := o; new := n; done := false |} ])
    = filter done ops.
Proof. rewrite filter_app. simpl. apply app_nil_r. Qed.

Lemma filter_done_completed (ops : list RenameOp) (o n : path) :
  rev (filter done (ops ++ [ {| old := o; new := n; done := true |} ]))
    = {| old := o; new := n; done := true |} :: rev (filter done ops).
Proof. rewrite filter_app. simpl. now rewrite rev_app_distr. Qed.

(** What a failed [_do_rename] leaves: the disk as it was and the step
    logged as not done. *)
Lemma _do_rename_failure (m m' : machine) (o n : path) (e : string) :
  _do_rename m o n = (m', Some e) ->
  fs m' = fs m /\
  _ops m' = _ops m ++ [ {| old := o; new := n; done := false |} ].
Proof.
  unfold _do_rename, _rename. simpl.
  destruct (negb (exists_ (fs m) o)); [intros H; injection H as <- _; auto|].
  destruct (exists_ (fs m) n && negb (path_eqb o n));
    [intros H; injection H as <- _; auto|].
  destruct (negb (_same_fs (fs m) o n));
    [intros H; injection H as <- _; auto|].
  destruct (next_fault (faults m)) as [f rest].
  destruct (os_rename f (fs m) o n); [discriminate|].
  intros H; injection H as <- _; auto.
Qed.

(** What a successful [_do_rename] leaves: the step logged as done, on a
    disk from which the opposite rename leads back. *)
Lemma _do_rename_success (m m' : machine) (o n : path) :
  well_formed (fs m) ->
  _do_rename m o n = (m', None) ->
  _ops m' = _ops m ++ [ {| old := o; new := n; done := true |} ] /\
  well_formed (fs m') /\ exists_ (fs m') n = true /\
  os_rename false (fs m') n o = Some (fs m).
Proof.
  intros Hwf. unfold _do_rename, _rename. simpl.
  destruct (exists_ (fs m) o) eqn:Eo; simpl; [|discriminate].
  destruct (exists_ (fs m) n && negb (path_eqb o n)) eqn:En; [discriminate|].
  destruct (negb (_same_fs (fs m) o n)); [discriminate|].
  destruct (next_fault (faults m)) as [f rest].
  destruct (os_rename f (fs m) o n) as [d'|] eqn:Er; [|discriminate].
  intros H; injection H as <-. simpl. split; auto.
  assert (Ef : f = false).
  { destruct f; auto. discriminate Er. }
  subst f. apply exists_In in Eo.
  apply andb_false_iff in En as [En|En].
  - apply exists_false in En.
    destruct (@rename_fresh _ _ _ _ Hwf Eo En Er) as (H1 & H2 & H3).
    split; [exact H1|]. split; [now apply exists_In|exact H3].
  - apply negb_false_iff, path_eqb_eq in En. subst n.
    rewrite (@rename_same _ _ Eo) in Er. injection Er as <-.
    split; [exact Hwf|]. split; [now apply exists_In|now apply rename_same].
Qed.

Lemma _do_rename_undoable (d0 : disk) (m : machine) (o n : path) :
  undoable d0 m -> undoable d0 (fst (_do_rename m o n)).
Proof.
  intros [Hwf Hu].
  destruct (_do_rename m o n) as [m' [e|]] eqn:E; simpl.
  - apply _do_rename_failure in E as [Ef Eo]. split.
    + now rewrite Ef.
    + intros fl Hq. rewrite Ef, Eo, filter_done_failed. auto.
  - apply _do_rename_success in E as (Eo & Hwf' & Hn & Hback); auto.
    split; auto.
    intros fl Hq. rewrite Eo, filter_done_completed.
    cbn [undo new old map]. rewrite Hn.
    destruct (@quiet_next fl Hq) as [Hf Hq'].
    destruct (next_fault fl) as [f fl']. simpl in Hf, Hq'. subst f.
    rewrite Hback, (Hu fl' Hq'). reflexivity.
Qed.

Lemma rename_files_undoable (d0 : disk) (working : path) (name : str)
    (items : list path) (m : machine) :
  undoable d0 m -> undoable d0 (fst (rename_files m working name items)).
Proof.
  revert m. induction items as [|item items IH]; intros m Hm; simpl; auto.
  destruct (negb (is_file (fs m) item)); auto.
  destruct (new_file_name name item) as [[|c fn]|]; auto.
  destruct (negb (str_eqb (Scan.name_of item) (c :: fn))
            && negb (exists_ (fs m) (child working (c :: fn)))); auto.
  pose proof (@_do_rename_undoable d0 m item (child working (c :: fn)) Hm)
    as H.
  destruct (_do_rename m item (child working (c :: fn))) as [m' [e|]];
    simpl in *; auto.
Qed.

Lemma rename_inside_undoable (d0 : disk) (working : path) (name : str)
    (m : machine) :
  undoable d0 m -> undoable d0 (fst (rename_inside m working name)).
Proof.
  intros Hm. unfold rename_inside, list_dir.
  destruct (next_fault (faults m)) as [f rest].
  destruct f; [exact Hm|].
  now apply rename_files_undoable.
Qed.

(** In a folder, every exit of the [try] body leaves a log that leads
    back to the disk the body started on. *)
Lemma try_rename_undoable (m : machine) (p : path) (name : str)
    (id now : Z) :
  well_formed (fs m) -> _ops m = [] -> is_dir (fs m) p = true ->
  undoable (fs m) (fst (try_rename m p name id now)).
Proof.
  intros Hwf Hops Hdir. pose proof (undoable_start m Hwf Hops) as Hm.
  unfold try_rename. rewrite Hdir.
  destruct (negb (_same_fs (fs m) p (child (parent p) name))); auto.
  destruct (negb (str_eqb (Scan.name_of p) name)).
  - destruct (exists_ (fs m) (child (parent p) name)); auto.
    pose proof (@_do_rename_undoable (fs m) m p
                  (child (parent p) (temp_name now id)) Hm) as H1.
    destruct (_do_rename m p (child (parent p) (temp_name now id)))
      as [m1 [e|]]; simpl in H1; auto.
    pose proof (@_do_rename_undoable (fs m) m1
                  (child (parent p) (temp_name now id))
                  (child (parent p) name) H1) as H2.
    destruct (_do_rename m1 (child (parent p) (temp_name now id))
                (child (parent p) name)) as [m2 [e|]]; simpl in H2; auto.
    now apply rename_inside_undoable.
  - now apply rename_inside_undoable.
Qed.

(** For a single file, a failure of the [try] body leaves no completed
    step in the log. *)
Lemma try_rename_file_failure (m m' : machine) (p : path) (name : str)
    (id now : Z) (e : string) :
  _ops m = [] -> is_dir (fs m) p = false ->
  try_rename m p name id now = (m', Some e) ->
  filter done (_ops m') = [].
Proof.
  intros Hops Hdir. unfold try_rename. rewrite Hdir.
  destruct (exists_ (fs m) (child (parent p) name)).
  - intros H. injection H as <- _. now rewrite Hops.
  - destruct (next_fault (faults m)) as [f rest].
    destruct (mkdir f (fs m) (child (parent p) name)) as [d|].
    + intros H. apply _do_rename_failure in H as [_ H].
      simpl in H. rewrite H, Hops. reflexivity.
    + intros H. injection H as <- _. simpl. now rewrite Hops.
Qed.

(** C1 (as the code has it).  When the transaction for an outcome on a
    well-formed disk fails, the rollback goes through the completed steps
    of the log in reverse order, whatever faults it meets, raises nothing
    and leaves the log empty: each step whose new path is present is
    renamed back or, if that fails, reported, and a step whose new path
    is absent is passed over.  If at least one rename had completed and
    no system call of the rollback fails, every completed step is renamed
    back and the disk is again, entry for entry, the disk the transaction
    started on. *)
Theorem C1_rollback_amended (m : machine) (p : path) (name : str)
    (id now : Z) (undo_faults : list bool) (e : string)
    (log : list RenameOp) (m' : machine)
    (tr : list (RenameOp * undo_outcome)) :
  well_formed (fs m) ->
  transaction m p name id now undo_faults = RolledBack e log m' tr ->
  map fst tr = rev (filter done log) /\
  _ops m' = [] /\
  (filter done log <> [] -> quiet undo_faults ->
   fs m' = fs m /\ Forall (fun x => snd x = Restored) tr).
Proof.
  intros Hwf. unfold transaction.
  set (m0 := {| fs := fs m; _ops := []; faults := faults m |}).
  destruct (try_rename m0 p name id now) as [m1 [e1|]] eqn:Et;
    [|discriminate].
  destruct (_rollback m1 undo_faults) as [m2 tr2] eqn:Er.
  intros H. injection H as <- <- <- <-.
  unfold _rollback in Er.
  split; [|split].
  - destruct (filter done (_ops m1)) as [|op ops] eqn:Ed.
    + injection Er as _ <-. reflexivity.
    + pose proof (undo_visits_all (rev (op :: ops)) (fs m1) undo_faults) as Hv.
      destruct (undo (fs m1) (rev (op :: ops)) undo_faults) as [d tr0].
      injection Er as _ <-. exact Hv.
  - destruct (filter done (_ops m1)) as [|op ops].
    + injection Er as <- _. reflexivity.
    + destruct (undo (fs m1) (rev (op :: ops)) undo_faults) as [d tr0].
      injection Er as <- _. reflexivity.
  - intros Hdone Hq.
    destruct (is_dir (fs m0) p) eqn:Edir.
    + pose proof (@try_rename_undoable m0 p name id now Hwf eq_refl Edir)
        as [_ Hu].
      rewrite Et in Hu. simpl in Hu. specialize (Hu undo_faults Hq).
      destruct (filter done (_ops m1)) as [|op ops]; [contradiction|].
      rewrite Hu in Er. injection Er as <- <-. simpl. split; auto.
      apply Forall_forall. intros x Hx.
      apply in_map_iff in Hx as (y & <- & _). reflexivity.
    + exfalso. apply Hdone.
      now apply (@try_rename_file_failure m0 m1 p name id now e1 eq_refl Edir).
Qed.

(** A library with one folder holding one film. *)
Definition entry_at (p : list string) (k : kind) : entry :=
  {| e_path := map lit p; e_kind := k; e_dev := 0 |}.

Definition library : disk :=
  [ entry_at [] Dir;
    entry_at [ "lib" ]%string Dir;
    entry_at [ "lib"; "Alien.1979" ]%string Dir;
    entry_at [ "lib"; "Alien.1979"; "alien.mkv" ]%string File;
    entry_at [ "lib"; "Alien.1979"; "alien.srt" ]%string File ].

Definition alien_folder : path := map lit [ "lib"; "Alien.1979" ]%string.

Definition alien_name : str := lit "Alien (1979) [imdbid-tt0078748]".

Lemma library_well_formed : well_formed library.
Proof.
  split.
  - repeat constructor; simpl; intuition discriminate.
  - intros e He _. simpl in He.
    repeat (destruct He as [<-|He]; [reflexivity|]). contradiction.
Defined.

(** The folder is renamed in two hops, its entries are listed, the first
    file is renamed, and the rename of the second file fails. *)
Definition failing_late : machine :=
  {| fs := library; _ops := [];
     faults := [false; false; false; false; true] |}.

Definition the_message (x : ending) : string :=
  match x with RolledBack e _ _ _ => e | Committed _ => EmptyString end.

Definition the_log (x : ending) : list RenameOp :=
  match x with RolledBack _ l _ _ => l | Committed _ => [] end.

Definition the_machine (x : ending) : machine :=
  match x with RolledBack _ _ m _ => m | Committed m => m end.

Definition the_trace (x : ending) : list (RenameOp * undo_outcome) :=
  match x with RolledBack _ _ _ t => t | Committed _ => [] end.

Lemma C1_rollback_amended_witness :
  let x := transaction failing_late alien_folder alien_name 348
             1700000000000 [] in
  map done (the_log x) = [true; true; true; false] /\
  fs (the_machine x) = library /\
  Forall (fun s => snd s = Restored) (the_trace x).
Proof.
  intros x. split; [vm_compute; reflexivity|].
  apply (@C1_rollback_amended failing_late alien_folder alien_name 348
           1700000000000 [] (the_message x) (the_log x) (the_machine x)
           (the_trace x)).
  - exact library_well_formed.
  - vm_compute. reflexivity.
  - vm_compute. discriminate.
  - reflexivity.
Defined.

(** C1 fails as stated: the same failure, met by a rollback whose first
    system call fails.  The failure is reported, the step before it finds
    nothing at its new path and is passed over without an attempt, and
    the folder stays under its new name: the paths on disk are not those
    the transaction started on. *)
Lemma C1_rollback_can_fail :
  let x := transaction failing_late alien_folder alien_name 348
             1700000000000 [false; true] in
  map done (the_log x) = [true; true; true; false] /\
  map snd (the_trace x) = [Restored; Reported; Passed] /\
  exists_ library alien_folder = true /\
  exists_ (fs (the_machine x)) alien_folder = false /\
  exists_ (fs (the_machine x)) (map lit [ "lib"; "Alien (1979) [imdbid-tt0078748]" ]%string) = true.
Proof. vm_compute. repeat split. Qed.

End RenameFacts.

(* ================================================================== *)
(** * Properties: regular expressions *)
(* ================================================================== *)

Module ReFacts.

Import Re.

(** The words of a regular expression. *)
Inductive lang : regex -> str -> Prop :=
| lang_eps : lang Eps []
| lang_cls (p : ascii -> bool) (c : ascii) : p c = true -> lang (Cls p) [c]
| lang_cat (a b : regex) (s t : str) :
    lang a s -> lang b t -> lang (Cat a b) (s ++ t)
| lang_alt_l (a b : regex) (s : str) : lang a s -> lang (Alt a b) s
| lang_alt_r (a b : regex) (s : str) : lang b s -> lang (Alt a b) s
| lang_star_nil (a : regex) : lang (Star a) []
| lang_star_more (a : regex) (s t : str) :
    lang a s -> lang (Star a) t -> lang (Star a) (s ++ t).

Lemma lang_cat_inv (a b : regex) (w : str) :
  lang (Cat a b) w -> exists s t, w = s ++ t /\ lang a s /\ lang b t.
Proof. intros H. inversion H; subst. eauto. Qed.

Lemma lang_alt_inv (a b : regex) (w : str) :
  lang (Alt a b) w -> lang a w \/ lang b w.
Proof. intros H. inversion H; subst; auto. Qed.

Lemma nullable_lang (r : regex) : nullable r = true <-> lang r [].
Proof.
  induction r as [| |p|a IHa b IHb|a IHa b IHb|a IHa]; simpl.
  - split; [discriminate|]. intros H. inversion H.
  - split; auto. intros _. constructor.
  - split; [discriminate|]. intros H. inversion H.
  - rewrite andb_true_iff, IHa, IHb. split.
    + intros [Ha Hb]. change (@nil ascii) with (@nil ascii ++ []).
      now constructor.
    + intros H. apply lang_cat_inv in H as (s & t & E & Hs & Ht).
      symmetry in E. apply app_eq_nil in E as [-> ->]. auto.
  - rewrite orb_true_iff, IHa, IHb. split.
    + intros [H|H]; [now apply lang_alt_l|now apply lang_alt_r].
    + apply lang_alt_inv.
  - split; auto. intros _. constructor.
Qed.

Lemma star_first (a : regex) (w : str) :
  lang (Star a) w ->
  forall c s, w = c :: s ->
  exists s1 s2, s = s1 ++ s2 /\ lang a (c :: s1) /\ lang (Star a) s2.
Proof.
  intros H. remember (Star a) as r eqn:Er.
  induction H as [| | | | | |a' s t Hs _ Ht IHt]; try discriminate.
  injection Er as ->. intros c u E.
  destruct s as [|x s].
  - simpl in E. now apply IHt.
  - simpl in E. injection E as -> <-. exists s, t. auto.
Qed.

Lemma deriv_lang (c : ascii) (r : regex) (s : str) :
  lang (deriv c r) s <-> lang r (c :: s).
Proof.
  revert s. induction r as [| |p|a IHa b IHb|a IHa b IHb|a IHa];
    intros s; simpl.
  - split; intros H; inversion H.
  - split; intros H; inversion H.
  - destruct (p c) eqn:E; split; intros H; inversion H; subst.
    + now constructor.
    + constructor.
    + congruence.
  - assert (L : lang (Cat (deriv c a) b) s -> lang (Cat a b) (c :: s)).
    { intros H. apply lang_cat_inv in H as (s1 & s2 & -> & H1 & H2).
      apply IHa in H1. change (c :: s1 ++ s2) with ((c :: s1) ++ s2).
      now constructor. }
    assert (R : lang (Cat a b) (c :: s) ->
                lang (Cat (deriv c a) b) s \/
                (lang a [] /\ lang (deriv c b) s)).
    { intros H. apply lang_cat_inv in H as (s1 & s2 & E & H1 & H2).
      destruct s1 as [|x s1]; simpl in E.
      - subst s2. right. split; auto. now apply IHb.
      - injection E as <- ->. left. constructor; auto. now apply IHa. }
    destruct (nullable a) eqn:En.
    + split.
      * intros H. apply lang_alt_inv in H as [H|H]; auto.
        apply nullable_lang in En.
        change (c :: s) with ([] ++ c :: s). constructor; auto.
        now apply IHb.
      * intros H. apply R in H as [H|[_ H]].
        -- now apply lang_alt_l.
        -- now apply lang_alt_r.
    + split; auto.
      intros H. apply R in H as [H|[H _]]; auto.
      apply nullable_lang in H. congruence.
  - split; intros H.
    + apply lang_alt_inv in H as [H|H].
      * apply lang_alt_l. now apply IHa.
      * apply lang_alt_r. now apply IHb.
    + apply lang_alt_inv in H as [H|H].
      * apply lang_alt_l. now apply IHa.
      * apply lang_alt_r. now apply IHb.
  - split.
    + intros H. apply lang_cat_inv in H as (s1 & s2 & -> & H1 & H2).
      apply IHa in H1. change (c :: s1 ++ s2) with ((c :: s1) ++ s2).
      now constructor.
    + intros H.
      destruct (@star_first a (c :: s) H c s eq_refl)
        as (s1 & s2 & -> & H1 & H2).
      constructor; auto. now apply IHa.
Qed.

(** The matcher decides membership. *)
Lemma matches_lang (r : regex) (s : str) : matches r s = true <-> lang r s.
Proof.
  revert r. induction s as [|c s IH]; intros r; simpl.
  - apply nullable_lang.
  - rewrite IH. apply deriv_lang.
Qed.

Lemma lang_seq_cons (r : regex) (rs : list regex) (s t : str) :
  lang r s -> lang (seq rs) t -> lang (seq (r :: rs)) (s ++ t).
Proof. intros. simpl. now constructor. Qed.

Lemma lang_chr_is (c : ascii) : lang (chr_is c) [c].
Proof. constructor. apply Ascii.eqb_refl. Qed.

Lemma lang_chars (l : str) : lang (seq (map chr_is l)) l.
Proof.
  induction l as [|c l IH]; simpl.
  - constructor.
  - change (c :: l) with ([c] ++ l). constructor; auto. apply lang_chr_is.
Qed.

Lemma lang_word (s : string) : lang (word s) (lit s).
Proof. apply lang_chars. Qed.

Lemma lang_star_cls (p : ascii -> bool) (s : str) :
  forallb p s = true -> lang (Star (Cls p)) s.
Proof.
  induction s as [|c s IH]; simpl.
  - constructor.
  - intros H. apply andb_true_iff in H as [Hc Hs].
    change (c :: s) with ([c] ++ s). constructor; auto. now constructor.
Qed.

Lemma lang_rep_cls (p : ascii -> bool) (s : str) :
  forallb p s = true -> lang (rep (List.length s) (Cls p)) s.
Proof.
  induction s as [|c s IH]; simpl.
  - constructor.
  - intros H. apply andb_true_iff in H as [Hc Hs].
    change (c :: s) with ([c] ++ s). constructor; auto. now constructor.
Qed.

Lemma forallb_firstn (p : ascii -> bool) (n : nat) (s : str) :
  forallb p s = true -> forallb p (firstn n s) = true.
Proof.
  rewrite !forallb_forall. intros H x Hx. apply H.
  now apply SortFacts.firstn_In in Hx.
Qed.

Lemma forallb_skipn (p : ascii -> bool) (n : nat) (s : str) :
  forallb p s = true -> forallb p (skipn n s) = true.
Proof.
  rewrite !forallb_forall. intros H x Hx. apply H.
  rewrite <- (firstn_skipn n s). apply in_or_app. now right.
Qed.

Lemma lang_at_least_cls (p : ascii -> bool) (n : nat) (s : str) :
  (n <= List.length s)%nat -> forallb p s = true ->
  lang (at_least n (Cls p)) s.
Proof.
  intros Hn Hp. unfold at_least.
  rewrite <- (firstn_skipn n s). constructor.
  - replace n with (List.length (firstn n s)) at 1.
    + apply lang_rep_cls. now apply forallb_firstn.
    + rewrite length_firstn. lia.
  - apply lang_star_cls. now apply forallb_skipn.
Qed.

Lemma lang_plus_cls (p : ascii -> bool) (c : ascii) (s : str) :
  forallb p (c :: s) = true -> lang (plus (Cls p)) (c :: s).
Proof.
  simpl. intros H. apply andb_true_iff in H as [Hc Hs].
  unfold plus. change (c :: s) with ([c] ++ s). constructor.
  - now constructor.
  - now apply lang_star_cls.
Qed.

(** The canonical shape [Title (YYYY) [imdbid-ttXXXXXXX]]: a title of one
    line, a four-digit year in parentheses and an identifier of seven or
    more digits. *)
Definition canonical_shape (t ys ds : str) : str :=
  t ++ lit " (" ++ ys ++ lit ") [imdbid-tt" ++ ds ++ lit "]".

Lemma canonical_shape_matches (t ys ds : str) :
  t <> [] -> forallb (fun x => negb (code x =? 10)%N) t = true ->
  List.length ys = 4%nat -> forallb is_digit ys = true ->
  (7 <= List.length ds)%nat -> forallb is_digit ds = true ->
  match_anchored Scan.canonical_name (canonical_shape t ys ds) = true.
Proof.
  intros Ht Hline Hy4 Hy Hd7 Hd.
  unfold match_anchored. apply orb_true_iff. left.
  apply matches_lang. unfold Scan.canonical_name, canonical_shape.
  destruct t as [|c t]; [contradiction|].
  apply lang_seq_cons; [now apply lang_plus_cls|].
  change (lit " (" ++ ys ++ lit ") [imdbid-tt" ++ ds ++ lit "]")
    with ([" "%char] ++ ["("%char] ++ ys ++ [")"%char] ++ [" "%char]
          ++ lit "[imdbid-tt" ++ ds ++ ["]"%char] ++ []).
  apply lang_seq_cons; [now constructor|].
  apply lang_seq_cons; [apply lang_chr_is|].
  apply lang_seq_cons; [rewrite <- Hy4; now apply lang_rep_cls|].
  apply lang_seq_cons; [apply lang_chr_is|].
  apply lang_seq_cons; [now constructor|].
  apply lang_seq_cons; [apply lang_word|].
  apply lang_seq_cons; [now apply lang_at_least_cls|].
  apply lang_seq_cons; [apply lang_chr_is|].
  constructor.
Qed.

(** Scanning a folder whose name has the canonical shape gives the
    done-already outcome and leaves the client untouched. *)
Lemma scan_folder_canonical_shape
    (_extract_title_year : str -> option str * option str)
    (walk : path -> list VideoFile) (w : Tmdb.world) (folder : path)
    (t ys ds : str) :
  Scan.name_of folder = canonical_shape t ys ds ->
  t <> [] -> forallb (fun x => negb (code x =? 10)%N) t = true ->
  List.length ys = 4%nat -> forallb is_digit ys = true ->
  (7 <= List.length ds)%nat -> forallb is_digit ds = true ->
  Scan.scan_folder _extract_title_year walk w folder
    = (ScanFacts.done_already folder, w).
Proof.
  intros E Ht Hline Hy4 Hy Hd7 Hd. unfold Scan.scan_folder.
  rewrite E, (@canonical_shape_matches t ys ds Ht Hline Hy4 Hy Hd7 Hd).
  unfold ScanFacts.done_already. now rewrite E.
Qed.

End ReFacts.
